(** * Currenton: a per-thread, per-type stack of "current" objects

    Verification of [src/currenton.cc].  The class template [Currenton<T>]
    keeps one [std::stack<T>] per thread ([thread_local]) and per
    instantiation [T].  [get()] hands out the object on top of the calling
    thread's stack, [makeCurrent(t, f)] pushes [t], calls [f] and pops again,
    on normal return and when [f] throws.

    Elements are treated as objects: the stack records which objects are
    installed and in what order.  Client programs that only ask which
    object is current are [prog]; those that also keep the reference
    [get()] returns and read or write through it are [rprog]. *)

From Stdlib Require Import List String Arith ZArith Bool Lia Eqdep_dec DecimalString.
Import ListNotations.
Open Scope string_scope.

(** ** C++ values the code manipulates *)

(** What a [throw] carries.  [std::runtime_error] keeps its [what()] string;
    any other thrown object is identified by a code. *)
Inductive exception : Type :=
| runtime_error (what : string)
| thrown_object (code : nat).

(** How a call ends: it returns, it throws, or it has no defined behaviour
    ([top()] and [pop()] of an empty [std::stack]). *)
Inductive outcome (A : Type) : Type :=
| Returned (a : A)
| Thrown (e : exception)
| Undefined.
Arguments Returned {A} a.
Arguments Thrown {A} e.
Arguments Undefined {A}.

(** [std::stack<T>]: the head of the list is the top. *)
Module StdStack.
Definition empty {T} (s : list T) : bool :=
  match s with [] => true | _ :: _ => false end.

Definition top {T} (s : list T) : option T :=
  match s with [] => None | x :: _ => Some x end.

Definition push {T} (x : T) (s : list T) : list T := x :: s.

Definition pop {T} (s : list T) : option (list T) :=
  match s with [] => None | _ :: s' => Some s' end.
End StdStack.

(** The only data member of the class: [std::stack<T> stack]. *)
Record Currenton (T : Type) : Type := { stack : list T }.
Arguments stack {T} c.
Arguments Build_Currenton {T} stack.

Definition tid := nat.

(** The types the template is instantiated at, by name, and the values of
    each.  Two names are two instantiations. *)
Class Instantiations : Type := {
  ty : Type;
  El : ty -> Type;
  ty_eq_dec : forall a b : ty, {a = b} + {a <> b}
}.

Declare Scope cxx_scope.
Delimit Scope cxx_scope with cxx.

Section Registry.

Context {I : Instantiations}.

(** ** Thread-local storage

    [thread_local Currenton currenton] inside [Currenton<T>::getCurrenton]
    is one object per thread and per [T], constructed the first time the
    thread reaches the declaration ([None]: not constructed yet). *)
Definition storage : Type := tid -> forall t : ty, option (Currenton (El t)).

Definition no_storage : storage := fun _ _ => None.

Definition store (i : tid) (t : ty) (c : Currenton (El t)) (m : storage) : storage :=
  fun j t' =>
    if Nat.eqb i j then
      match ty_eq_dec t t' with
      | left e => Some (eq_rect t (fun x => Currenton (El x)) c t' e)
      | right _ => m j t'
      end
    else m j t'.

(** The state a call runs in: thread-local storage, what was written to
    [std::cout], and the rest of the caller's state. *)
Record world (U : Type) : Type := {
  tls : storage;
  cout : list string;
  user : U
}.
Arguments tls {U} w.
Arguments cout {U} w.
Arguments user {U} w.
Arguments Build_world {U} tls cout user.

Definition set_tls {U} (m : storage) (w : world U) : world U :=
  {| tls := m; cout := cout w; user := user w |}.

Definition put_line {U} (l : string) (w : world U) : world U :=
  {| tls := tls w; cout := (cout w ++ [l])%list; user := user w |}.

Definition set_user {U V} (v : V) (w : world U) : world V :=
  {| tls := tls w; cout := cout w; user := v |}.

(** The stack of thread [i] for type [t] as an observer sees it. *)
Definition stack_at {U} (w : world U) (i : tid) (t : ty) : list (El t) :=
  match tls w i t with
  | Some c => stack c
  | None => []
  end.

(** ** Calls as state transformers with exceptions *)

Definition M (U A : Type) : Type := world U -> outcome A * world U.

Definition ret {U A} (a : A) : M U A := fun w => (Returned a, w).

Definition throw {U A} (e : exception) : M U A := fun w => (Thrown e, w).

Definition bind {U A B} (m : M U A) (k : A -> M U B) : M U B :=
  fun w =>
    match m w with
    | (Returned a, w') => k a w'
    | (Thrown e, w') => (Thrown e, w')
    | (Undefined, w') => (Undefined, w')
    end.

(** [try { m } catch (...) { h }]: the handler has no name for the exception,
    all it can do with it is [throw;], passed to it as [rethrow]. *)
Definition try_catch_all {U A} (m : M U A) (h : M U A -> M U A) : M U A :=
  fun w =>
    match m w with
    | (Thrown e, w') => h (throw e) w'
    | r => r
    end.

(** [try { m } catch (E e) { h e }] of client code. *)
Definition try_catch {U A} (m : M U A) (h : exception -> M U A) : M U A :=
  fun w =>
    match m w with
    | (Thrown e, w') => h e w'
    | r => r
    end.

Notation "x <- m ;; k" := (bind m (fun x => k))
  (at level 61, m at next level, right associativity) : cxx_scope.
Notation "m ;; k" := (bind m (fun _ => k))
  (at level 61, right associativity) : cxx_scope.
Local Open Scope cxx_scope.

(** ** The class members *)

(** [Currenton() { std::cout << "Creating thread currenton." << std::endl; }] *)
Definition construct {U} (i : tid) (t : ty) (w : world U) : world U :=
  put_line "Creating thread currenton."
           (set_tls (store i t {| stack := [] |} (tls w)) w).

(** [getCurrenton()]: the calling thread's object, constructed on the first
    use. *)
Definition getCurrenton {U} (i : tid) (t : ty) (w : world U)
  : Currenton (El t) * world U :=
  match tls w i t with
  | Some c => (c, w)
  | None => ({| stack := [] |}, construct i t w)
  end.

(** [getCurrenton().stack.op(...)]: [op] reads and updates the stack of the
    object [getCurrenton()] refers to; [None] is undefined behaviour. *)
Definition on_stack {U A} (i : tid) (t : ty)
    (op : list (El t) -> option (A * list (El t))) : M U A :=
  fun w =>
    let (c, w1) := getCurrenton i t w in
    match op (stack c) with
    | Some (a, s') => (Returned a, set_tls (store i t {| stack := s' |} (tls w1)) w1)
    | None => (Undefined, w1)
    end.

Definition stack_empty {T} (s : list T) : option (bool * list T) :=
  Some (StdStack.empty s, s).

Definition stack_top {T} (s : list T) : option (T * list T) :=
  match StdStack.top s with Some x => Some (x, s) | None => None end.

Definition stack_push {T} (x : T) (s : list T) : option (unit * list T) :=
  Some (tt, StdStack.push x s).

Definition stack_pop {T} (s : list T) : option (unit * list T) :=
  match StdStack.pop s with Some s' => Some (tt, s') | None => None end.

(** [static T& get()] called on thread [i]. *)
Definition get {U} (i : tid) (t : ty) : M U (El t) :=
  e <- on_stack i t stack_empty ;;
  if negb e then on_stack i t stack_top
  else throw (runtime_error "No current object").

(** [static void makeCurrent(T&& t, std::function<void()> f)] called on
    thread [i]. *)
Definition makeCurrent {U} (i : tid) (t : ty) (v : El t) (f : M U unit) : M U unit :=
  on_stack i t (stack_push v) ;;
  try_catch_all f (fun rethrow => on_stack i t stack_pop ;; rethrow) ;;
  on_stack i t stack_pop.

(** A callable with a result of type [R] stored in a
    [std::function<void()>]: the call discards the result. *)
Definition as_void {U R} (a : M U R) : M U unit := _ <- a ;; ret tt.

(** ** Client code

    The stack is a private member, so code outside the class reaches it
    through [get] and [makeCurrent] only.  A client program is any finite
    combination of those calls with [throw], [try]/[catch], its own state
    and the start of further threads; the continuations are arbitrary
    functions of what was read. *)
Inductive prog (U : Type) : Type :=
| Return
| Throw (e : exception)
| Get (t : ty) (k : El t -> prog U)
| MakeCurrent (t : ty) (v : El t) (f : prog U) (k : prog U)
| TryCatch (body : prog U) (handler : exception -> prog U) (k : prog U)
| Modify (g : U -> U) (k : prog U)
| Inspect (k : U -> prog U)
| Spawn (child : prog U) (k : prog U).
Arguments Return {U}.
Arguments Throw {U} e.
Arguments Get {U} t k.
Arguments MakeCurrent {U} t v f k.
Arguments TryCatch {U} body handler k.
Arguments Modify {U} g k.
Arguments Inspect {U} k.
Arguments Spawn {U} child k.

Definition modify {U} (g : U -> U) : M U unit :=
  fun w => (Returned tt, set_user (g (user w)) w).

(** What thread [i] itself does when it executes [p].  A spawned child runs
    on a thread of its own (see [step_thread] and [schedule] below); the
    spawning thread goes on at once. *)
Fixpoint run {U} (i : tid) (p : prog U) : M U unit :=
  match p with
  | Return => ret tt
  | Throw e => throw e
  | Get t k => x <- get i t ;; run i (k x)
  | MakeCurrent t v f k => makeCurrent i t v (run i f) ;; run i k
  | TryCatch body handler k =>
      try_catch (run i body) (fun e => run i (handler e)) ;; run i k
  | Modify g k => modify g ;; run i k
  | Inspect k => fun w => run i (k (user w)) w
  | Spawn _ k => run i k
  end.

(** An action that has defined behaviour and leaves every stack as it
    found it. *)
Definition restores {U} (f : M U unit) : Prop :=
  forall w,
    fst (f w) <> Undefined
    /\ forall j t, stack_at (snd (f w)) j t = stack_at w j t.

(** A program all of whose calls are on instantiations in [Q]; a program
    that never names the instantiation [b]. *)
Fixpoint within {U} (Q : ty -> Prop) (p : prog U) : Prop :=
  match p with
  | Return => True
  | Throw _ => True
  | Get t k => Q t /\ forall x, within Q (k x)
  | MakeCurrent t _ f k => Q t /\ within Q f /\ within Q k
  | TryCatch body handler k =>
      within Q body /\ (forall e, within Q (handler e)) /\ within Q k
  | Modify _ k => within Q k
  | Inspect k => forall u, within Q (k u)
  | Spawn child k => within Q child /\ within Q k
  end.

Definition avoids {U} (b : ty) (p : prog U) : Prop :=
  within (fun t => t <> b) p.

(** Two states with the same storage at the places [P], and two results
    that are the same up to the places outside [P]. *)
Definition agree {U} (P : tid -> ty -> Prop) (w w' : world U) : Prop :=
  user w = user w' /\ forall k t, P k t -> tls w k t = tls w' k t.

(** The places of thread [i]. *)
Definition own (i : tid) : tid -> ty -> Prop := fun k _ => k = i.

Definition same_at {U A} (P : tid -> ty -> Prop)
    (r r' : outcome A * world U) : Prop :=
  fst r = fst r' /\ agree P (snd r) (snd r').

(** ** Counting the calls of an action

    [counting f] is the action [f] with a call counter next to its state:
    every call adds one to the counter and then does what [f] does. *)
Definition counting {U} (f : M U unit) : M (nat * U) unit :=
  fun w =>
    let (o, w') := f (set_user (snd (user w)) w) in
    (o, set_user (S (fst (user w)), user w') w').

(** ** The scoped reading of the specification

    The specification's words: [withCurrent(value, action)] makes [value]
    current for the dynamic extent of [action], and [current()] is the value
    of the innermost [withCurrent] that has not been left yet, or fails with
    [NoCurrentValue].  Nothing is pushed or popped here: the values in
    force are an environment handed down to the action. *)
Definition NoCurrentValue : exception := runtime_error "No current object".

Definition env : Type := forall t : ty, list (El t).

Definition install (t : ty) (v : El t) (r : env) : env :=
  fun t' =>
    match ty_eq_dec t t' with
    | left e => eq_rect t El v t' e :: r t'
    | right _ => r t'
    end.

Fixpoint scoped {U} (p : prog U) (r : env) (u : U) : outcome unit * U :=
  match p with
  | Return => (Returned tt, u)
  | Throw e => (Thrown e, u)
  | Get t k =>
      match r t with
      | v :: _ => scoped (k v) r u
      | [] => (Thrown NoCurrentValue, u)
      end
  | MakeCurrent t v f k =>
      match scoped f (install t v r) u with
      | (Returned _, u') => scoped k r u'
      | other => other
      end
  | TryCatch body handler k =>
      match scoped body r u with
      | (Returned _, u') => scoped k r u'
      | (Thrown e, u') =>
          match scoped (handler e) r u' with
          | (Returned _, u'') => scoped k r u''
          | other => other
          end
      | other => other
      end
  | Modify g k => scoped k r (g u)
  | Inspect k => scoped (k u) r u
  | Spawn _ k => scoped k r u
  end.

(** ** Threads

    A thread executes its program one call at a time.  What is left to do
    after the current program is a list of frames, innermost first. *)
Inductive frame (U : Type) : Type :=
| FPop (t : ty) (k : prog U)
    (* inside the [try] of [makeCurrent]: pop, then go on with [k]
       (the caller of [makeCurrent]); pop and rethrow on an exception *)
| FCatch (handler : exception -> prog U) (k : prog U)
    (* inside the [try] of client code *)
| FSeq (k : prog U).
    (* inside a client handler *)
Arguments FPop {U} t k.
Arguments FCatch {U} handler k.
Arguments FSeq {U} k.

Inductive config (U : Type) : Type :=
| Active (p : prog U) (K : list (frame U))
| Halted (o : outcome unit).
Arguments Active {U} p K.
Arguments Halted {U} o.

(** One step of thread [i]: the new configuration, the new state and the
    programs of the threads it started. *)
Definition step_thread {U} (i : tid) (c : config U) (w : world U)
  : config U * world U * list (prog U) :=
  match c with
  | Halted o => (Halted o, w, [])
  | Active p K =>
      match p with
      | Return =>
          match K with
          | [] => (Halted (Returned tt), w, [])
          | FPop t k :: K' =>
              match on_stack i t stack_pop w with
              | (Returned _, w') => (Active k K', w', [])
              | (Thrown e, w') => (Active (Throw e) K', w', [])
              | (Undefined, w') => (Halted Undefined, w', [])
              end
          | FCatch _ k :: K' => (Active k K', w, [])
          | FSeq k :: K' => (Active k K', w, [])
          end
      | Throw e =>
          match K with
          | [] => (Halted (Thrown e), w, [])
          | FPop t _ :: K' =>
              match on_stack i t stack_pop w with
              | (Returned _, w') => (Active (Throw e) K', w', [])
              | (Thrown e', w') => (Active (Throw e') K', w', [])
              | (Undefined, w') => (Halted Undefined, w', [])
              end
          | FCatch handler k :: K' => (Active (handler e) (FSeq k :: K'), w, [])
          | FSeq _ :: K' => (Active (Throw e) K', w, [])
          end
      | Get t k =>
          match get i t w with
          | (Returned x, w') => (Active (k x) K, w', [])
          | (Thrown e, w') => (Active (Throw e) K, w', [])
          | (Undefined, w') => (Halted Undefined, w', [])
          end
      | MakeCurrent t v f k =>
          match on_stack i t (stack_push v) w with
          | (Returned _, w') => (Active f (FPop t k :: K), w', [])
          | (Thrown e, w') => (Active (Throw e) K, w', [])
          | (Undefined, w') => (Halted Undefined, w', [])
          end
      | TryCatch body handler k => (Active body (FCatch handler k :: K), w, [])
      | Modify g k => (Active k K, set_user (g (user w)) w, [])
      | Inspect k => (Active (k (user w)) K, w, [])
      | Spawn child k => (Active k K, w, [child])
      end
  end.

(** [n] steps of thread [i] on its own. *)
Fixpoint steps {U} (i : tid) (n : nat) (c : config U) (w : world U)
  : config U * world U :=
  match n with
  | O => (c, w)
  | S n' => let '(c', w', _) := step_thread i c w in steps i n' c' w'
  end.

(** How a finished call shows in a thread: the program left is a plain
    [Return] or [Throw]. *)
Definition ended {U} (o : outcome unit) : prog U :=
  match o with
  | Thrown e => Throw e
  | _ => Return
  end.

(** The process: every thread with its own state, and what the threads
    share, the storage (indexed by thread) and [std::cout].  A thread that
    has halted keeps its number and its storage: what [~Currenton()] does
    when a thread ends is not part of this model. *)
Record pool (U : Type) : Type := {
  threads : list (config U * U);
  pool_tls : storage;
  pool_cout : list string
}.
Arguments threads {U} p.
Arguments pool_tls {U} p.
Arguments pool_cout {U} p.
Arguments Build_pool {U} threads pool_tls pool_cout.

Fixpoint replace_nth {A} (n : nat) (x : A) (l : list A) : list A :=
  match l, n with
  | [], _ => []
  | _ :: l', O => x :: l'
  | y :: l', S n' => y :: replace_nth n' x l'
  end.

(** Thread [i] is given one step.  A thread started by the step is appended
    to the pool: its number is new, its state a copy of its parent's. *)
Definition step_pool {U} (i : tid) (P : pool U) : pool U :=
  match nth_error (threads P) i with
  | None => P
  | Some (c, u) =>
      let '(c', w', started) :=
        step_thread i c {| tls := pool_tls P; cout := pool_cout P; user := u |} in
      {| threads := (replace_nth i (c', user w') (threads P)
                     ++ map (fun q => (Active q [], user w')) started)%list;
         pool_tls := tls w';
         pool_cout := cout w' |}
  end.

(** An interleaving is the list of the threads' turns. *)
Fixpoint schedule {U} (turns : list tid) (P : pool U) : pool U :=
  match turns with
  | [] => P
  | i :: rest => schedule rest (step_pool i P)
  end.

(** The process at its start: the given threads, nothing constructed,
    nothing printed. *)
Definition boot {U} (ps : list (prog U * U)) : pool U :=
  {| threads := map (fun pu => (Active (fst pu) [], snd pu)) ps;
     pool_tls := no_storage;
     pool_cout := [] |}.

(** Thread [i] is in the same configuration, with the same state and the
    same storage, in two processes. *)
Definition same_thread {U} (i : tid) (P Q : pool U) : Prop :=
  nth_error (threads P) i = nth_error (threads Q) i
  /\ forall t, pool_tls P i t = pool_tls Q i t.

(** Nothing is stored for the threads that do not exist yet. *)
Definition fresh_beyond {U} (P : pool U) : Prop :=
  forall k t, List.length (threads P) <= k -> pool_tls P k t = None.

Definition pool_stack {U} (P : pool U) (i : tid) (t : ty) : list (El t) :=
  match pool_tls P i t with
  | Some c => stack c
  | None => []
  end.

(** ** Lazy construction

    What the constructor writes, and whether thread [i] has constructed its
    [Currenton<t>] yet. *)
Definition creation_line : string := "Creating thread currenton.".

Definition constructed {U} (w : world U) (i : tid) (t : ty) : Prop :=
  tls w i t <> None.

(** What a first use adds to [std::cout]. *)
Definition first_use {U} (w : world U) (i : tid) (t : ty) : list string :=
  match tls w i t with
  | None => [creation_line]
  | Some _ => []
  end.

(** Calls on instantiations thread [i] has constructed write nothing and
    leave them constructed. *)
Definition quiet {U} (i : tid) (Q : ty -> Prop) (w w' : world U) : Prop :=
  (forall t, Q t -> constructed w i t) ->
  cout w' = cout w /\ forall t, Q t -> constructed w' i t.

(** Calls only ever add creation lines, and what is constructed stays. *)
Definition grown {U} (w w' : world U) : Prop :=
  (forall j t, constructed w j t -> constructed w' j t)
  /\ exists n, cout w' = (cout w ++ repeat creation_line n)%list.

(** ** Calls in progress

    The number of [makeCurrent] calls on [t] a thread is inside of: the
    pops its frames still owe. *)
Fixpoint pending {U} (t : ty) (K : list (frame U)) : nat :=
  match K with
  | [] => 0
  | FPop t' _ :: K' => (if ty_eq_dec t' t then 1 else 0) + pending t K'
  | _ :: K' => pending t K'
  end.

(** A thread that started on the stacks [base] and now has the stacks
    [stk]: while it is active, each stack is its base with one value on
    top for every call in progress; when it has halted, it did so with
    defined behaviour and on its base. *)
Definition above {U} (base : env) (c : config U) (stk : env) : Prop :=
  match c with
  | Active _ K =>
      forall t, exists pre,
        stk t = (pre ++ base t)%list /\ List.length pre = pending t K
  | Halted o => o <> Undefined /\ forall t, stk t = base t
  end.

Definition no_values : env := fun _ => [].

(** Every thread of the process is above the empty stacks it started on,
    and nothing is stored for the threads to come. *)
Definition pool_ok {U} (P : pool U) : Prop :=
  fresh_beyond P
  /\ forall i c u,
       nth_error (threads P) i = Some (c, u) ->
       above no_values c (fun t => pool_stack P i t).

(** ** References into the stack

    [get] returns a [T&]: a reference to the element on top, through which
    a caller can read and write the element for as long as it is on the
    stack.  [std::stack] keeps its elements in a [std::deque], which a push
    or a pop at the top leaves in place, so a reference is the element's
    position counted from the bottom.  A reference to an element that has
    been popped dangles, and its use has no defined behaviour; here that is
    the case of a position at or above the top. *)
Definition ref : Type := nat.

Definition stack_top_ref {T} (s : list T) : option (ref * list T) :=
  match s with
  | [] => None
  | _ :: s' => Some (List.length s', s)
  end.

Fixpoint read_at {T} (r : ref) (s : list T) : option T :=
  match s with
  | [] => None
  | y :: s' => if Nat.eqb r (List.length s') then Some y else read_at r s'
  end.

Fixpoint assign_at {T} (r : ref) (x : T) (s : list T) : option (list T) :=
  match s with
  | [] => None
  | y :: s' =>
      if Nat.eqb r (List.length s') then Some (x :: s')
      else match assign_at r x s' with
           | Some s'' => Some (y :: s'')
           | None => None
           end
  end.

Definition stack_read {T} (r : ref) (s : list T) : option (T * list T) :=
  match read_at r s with Some y => Some (y, s) | None => None end.

Definition stack_assign {T} (r : ref) (x : T) (s : list T)
  : option (unit * list T) :=
  match assign_at r x s with Some s' => Some (tt, s') | None => None end.

(** [T& r = Currenton<T>::get();] on thread [i]: [get], keeping the
    reference. *)
Definition get_ref {U} (i : tid) (t : ty) : M U ref :=
  e <- on_stack i t stack_empty ;;
  if negb e then on_stack i t stack_top_ref
  else throw (runtime_error "No current object").

(** Client code that also keeps, reads and writes through the references
    [get] returns: [prog] with [T& r = get()], a read of [r] and [r = x]. *)
Inductive rprog (U : Type) : Type :=
| RReturn
| RThrow (e : exception)
| RGet (t : ty) (k : El t -> rprog U)
| RGetRef (t : ty) (k : ref -> rprog U)
| RRead (t : ty) (r : ref) (k : El t -> rprog U)
| RWrite (t : ty) (r : ref) (x : El t) (k : rprog U)
| RMakeCurrent (t : ty) (v : El t) (f : rprog U) (k : rprog U)
| RTryCatch (body : rprog U) (handler : exception -> rprog U) (k : rprog U)
| RModify (g : U -> U) (k : rprog U)
| RInspect (k : U -> rprog U)
| RSpawn (child : rprog U) (k : rprog U).
Arguments RReturn {U}.
Arguments RThrow {U} e.
Arguments RGet {U} t k.
Arguments RGetRef {U} t k.
Arguments RRead {U} t r k.
Arguments RWrite {U} t r x k.
Arguments RMakeCurrent {U} t v f k.
Arguments RTryCatch {U} body handler k.
Arguments RModify {U} g k.
Arguments RInspect {U} k.
Arguments RSpawn {U} child k.

Fixpoint rrun {U} (i : tid) (p : rprog U) : M U unit :=
  match p with
  | RReturn => ret tt
  | RThrow e => throw e
  | RGet t k => x <- get i t ;; rrun i (k x)
  | RGetRef t k => r <- get_ref i t ;; rrun i (k r)
  | RRead t r k => x <- on_stack i t (stack_read r) ;; rrun i (k x)
  | RWrite t r x k => on_stack i t (stack_assign r x) ;; rrun i k
  | RMakeCurrent t v f k => makeCurrent i t v (rrun i f) ;; rrun i k
  | RTryCatch body handler k =>
      try_catch (rrun i body) (fun e => rrun i (handler e)) ;; rrun i k
  | RModify g k => modify g ;; rrun i k
  | RInspect k => fun w => rrun i (k (user w)) w
  | RSpawn _ k => rrun i k
  end.

(** A program that never writes through a reference. *)
Fixpoint reads_only {U} (p : rprog U) : Prop :=
  match p with
  | RReturn => True
  | RThrow _ => True
  | RGet _ k => forall x, reads_only (k x)
  | RGetRef _ k => forall r, reads_only (k r)
  | RRead _ _ k => forall x, reads_only (k x)
  | RWrite _ _ _ _ => False
  | RMakeCurrent _ _ f k => reads_only f /\ reads_only k
  | RTryCatch body handler k =>
      reads_only body /\ (forall e, reads_only (handler e)) /\ reads_only k
  | RModify _ k => reads_only k
  | RInspect k => forall u, reads_only (k u)
  | RSpawn child k => reads_only child /\ reads_only k
  end.

(** A client program of [prog] is one that keeps no reference. *)
Fixpoint keeping_none {U} (p : prog U) : rprog U :=
  match p with
  | Return => RReturn
  | Throw e => RThrow e
  | Get t k => RGet t (fun x => keeping_none (k x))
  | MakeCurrent t v f k => RMakeCurrent t v (keeping_none f) (keeping_none k)
  | TryCatch body handler k =>
      RTryCatch (keeping_none body) (fun e => keeping_none (handler e))
                (keeping_none k)
  | Modify g k => RModify g (keeping_none k)
  | Inspect k => RInspect (fun u => keeping_none (k u))
  | Spawn child k => RSpawn (keeping_none child) (keeping_none k)
  end.

(** An action that, when its behaviour is defined, leaves every stack with
    as many elements as it found, and, under [P], with the same elements. *)
Definition keeps {U A} (P : Prop) (f : M U A) : Prop :=
  forall w,
    fst (f w) <> Undefined ->
    (forall j t, List.length (stack_at (snd (f w)) j t)
                 = List.length (stack_at w j t))
    /\ (P -> forall j t, stack_at (snd (f w)) j t = stack_at w j t).

End Registry.

Arguments RReturn {I U}.
Arguments RThrow {I U} e.
Arguments RGet {I U} t k.
Arguments RGetRef {I U} t k.
Arguments RRead {I U} t r k.
Arguments RWrite {I U} t r x k.
Arguments RMakeCurrent {I U} t v f k.
Arguments RTryCatch {I U} body handler k.
Arguments RModify {I U} g k.
Arguments RInspect {I U} k.
Arguments RSpawn {I U} child k.

Arguments tls {I U} w.
Arguments cout {I U} w.
Arguments user {I U} w.
Arguments Build_world {I U} tls cout user.
Arguments Return {I U}.
Arguments Throw {I U} e.
Arguments Get {I U} t k.
Arguments MakeCurrent {I U} t v f k.
Arguments TryCatch {I U} body handler k.
Arguments Modify {I U} g k.
Arguments Inspect {I U} k.
Arguments Spawn {I U} child k.
Arguments FPop {I U} t k.
Arguments FCatch {I U} handler k.
Arguments FSeq {I U} k.
Arguments Active {I U} p K.
Arguments Halted {I U} o.
Arguments threads {I U} p.
Arguments pool_tls {I U} p.
Arguments pool_cout {I U} p.
Arguments Build_pool {I U} threads pool_tls pool_cout.

Notation "x <- m ;; k" := (bind m (fun x => k))
  (at level 61, m at next level, right associativity) : cxx_scope.
Notation "m ;; k" := (bind m (fun _ => k))
  (at level 61, right associativity) : cxx_scope.


(** ** The program of the source file

    [Integer], [incrementNicely] and [incrementButFail] of
    [src/currenton.cc].  The lines the functions write are collected in the
    caller's state.  The recursion of both functions ends when the current
    value reaches 20 (or 15); [depth] bounds it. *)
Module Demo.

Inductive instantiation : Type := Currenton_Integer | Currenton_Clock.

Record Integer : Type := { getValue : Z }.

Definition values (t : instantiation) : Type :=
  match t with
  | Currenton_Integer => Integer
  | Currenton_Clock => string
  end.

Definition instantiation_eq_dec (a b : instantiation) : {a = b} + {a <> b}.
Proof. decide equality. Defined.

#[export] Instance demo : Instantiations :=
  {| ty := instantiation; El := values; ty_eq_dec := instantiation_eq_dec |}.

Definition show (z : Z) : string := NilZero.string_of_int (Z.to_int z).

Definition say (l : string) (k : prog (list string)) : prog (list string) :=
  Modify (fun out => (out ++ [l])%list) k.

Fixpoint incrementNicely (depth : nat) : prog (list string) :=
  match depth with
  | O => Return
  | S d =>
      Get Currenton_Integer (fun c =>
        let currentValue := getValue c in
        let rest :=
          Get Currenton_Integer (fun c' =>
            say ("Before call: " ++ show currentValue
                 ++ ". After call: " ++ show (getValue c')) Return) in
        if (currentValue <? 20)%Z
        then MakeCurrent Currenton_Integer
               {| getValue := currentValue + 1 |} (incrementNicely d) rest
        else rest)
  end.

Fixpoint incrementButFail (depth : nat) : prog (list string) :=
  match depth with
  | O => Return
  | S d =>
      Get Currenton_Integer (fun c =>
        let currentValue := getValue c in
        if (currentValue =? 15)%Z then Throw (runtime_error "Oh no.")
        else if (currentValue <? 20)%Z then
          TryCatch
            (MakeCurrent Currenton_Integer
               {| getValue := currentValue + 1 |} (incrementButFail d) Return)
            (fun e =>
               Get Currenton_Integer (fun c' =>
                 say ("Before call: " ++ show currentValue
                      ++ ". After exception: " ++ show (getValue c'))
                     (Throw e)))
            Return
        else Return)
  end.

(** The state [main] starts in. *)
Definition start : world (list string) :=
  {| tls := no_storage; cout := []; user := [] |}.

(** [Currenton<Integer>::makeCurrent({10}, incrementNicely)] on the main
    thread. *)
Definition main_nicely : M (list string) unit :=
  makeCurrent 0 Currenton_Integer {| getValue := 10 |} (run 0 (incrementNicely 32)).

Definition main_fail : M (list string) unit :=
  makeCurrent 0 Currenton_Integer {| getValue := 10 |} (run 0 (incrementButFail 32)).

(** The values and programs of the scenarios below. *)
Definition ten : Integer := {| getValue := 10 |}.
Definition eleven : Integer := {| getValue := 11 |}.

(** The specification's scenario: with 10 installed [get] gives 10; inside,
    with 11 installed, [get] gives 11; the inner action throws; the outer
    call throws the same; the stack is empty again and [get] fails. *)
Definition nested_failure : prog (list Z) :=
  MakeCurrent Currenton_Integer ten
    (Get Currenton_Integer (fun c =>
       Modify (fun seen => (seen ++ [getValue c])%list)
         (MakeCurrent Currenton_Integer eleven
            (Get Currenton_Integer (fun c' =>
               Modify (fun seen => (seen ++ [getValue c'])%list)
                      (Throw (thrown_object 7))))
            Return)))
    Return.

Definition nothing_yet : world (list Z) :=
  {| tls := no_storage; cout := []; user := [] |}.

(** A thread that installs [x], reads the current value and notes it. *)
Definition reader (x : Z) : prog (list Z) :=
  MakeCurrent Currenton_Integer {| getValue := x |}
    (Get Currenton_Integer (fun c => Modify (cons (getValue c)) Return))
    Return.

Definition two_threads : pool (list Z) := boot [(reader 10, []); (reader 99, [])].

(** The specification's two threads: one installs 10 and reads, the other
    installs 99 and reads.  Under every interleaving each notes its own
    value and nothing else, and has noted it when it is done. *)
Definition notes_only (x : Z) (cu : option (config (list Z) * list Z)) : Prop :=
  exists c u,
    cu = Some (c, u)
    /\ (u = [] \/ u = [x])
    /\ forall o, c = Halted o -> o = Returned tt /\ u = [x].

(** A caller that has 5 current keeps the reference [get] gives it, and
    installs 6 around an action that writes 77 through the reference:
    [Integer& r = get(); makeCurrent({6}, [&r]{ r = Integer(77); });] *)
Definition five_current : world (list Z) :=
  snd (on_stack 0%nat Currenton_Integer (stack_push {| getValue := 5 |}) nothing_yet).

Definition kept_reference : ref := 0%nat.

Definition overwrite : rprog (list Z) :=
  RWrite Currenton_Integer kept_reference {| getValue := 77 |} RReturn.

(** An action that writes through the reference it gets inside, to the
    value just installed. *)
Definition overwrite_own : rprog (list Z) :=
  RGetRef Currenton_Integer (fun r =>
    RWrite Currenton_Integer r {| getValue := 77 |}
      (RGet Currenton_Integer (fun c => RModify (cons (getValue c)) RReturn))).

(** States with [ten] current on thread 0: alone, and on top of
    [eleven]. *)
Definition ten_current : world (list Z) :=
  snd (on_stack 0%nat Currenton_Integer (stack_push ten) nothing_yet).

Definition ten_over_eleven : world (list Z) :=
  snd (on_stack 0%nat Currenton_Integer (stack_push ten)
         (snd (on_stack 0%nat Currenton_Integer (stack_push eleven) nothing_yet))).

(** [start] with the value [v] current on thread 0. *)
Definition started_at (v : Z) : world (list string) :=
  snd (on_stack 0%nat Currenton_Integer (stack_push {| getValue := v |}) start).

(** What [incrementNicely] and [incrementButFail] write at one level, and
    at the [S n] levels from the value [v] up, innermost level first. *)
Definition nicely_line (v : Z) : string :=
  "Before call: " ++ show v ++ ". After call: " ++ show v.

Fixpoint nicely_lines (n : nat) (v : Z) : list string :=
  match n with
  | O => [nicely_line v]
  | S n' => (nicely_lines n' (v + 1) ++ [nicely_line v])%list
  end.

Definition fail_line (v : Z) : string :=
  "Before call: " ++ show v ++ ". After exception: " ++ show v.

Fixpoint fail_lines (n : nat) (v : Z) : list string :=
  match n with
  | O => []
  | S n' => (fail_lines n' (v + 1) ++ [fail_line v])%list
  end.

(** An action that starts a thread while it has 10 installed. *)
Definition parent : prog (list Z) :=
  MakeCurrent Currenton_Integer ten
    (Spawn (Get Currenton_Integer (fun c => Modify (cons (getValue c)) Return))
           Return)
    Return.

(** [main]'s four threads, each with
    [Currenton<Integer>::makeCurrent({18}, incrementNicely)]. *)
Definition from_18 : prog (list string) :=
  MakeCurrent Currenton_Integer {| getValue := 18 |} (incrementNicely 32) Return.

Definition four_threads : pool (list string) :=
  boot [(from_18, []); (from_18, []); (from_18, []); (from_18, [])].

(** A state in which thread 3 has a clock installed, and a program that
    only ever names [Currenton<Integer>]. *)
Definition with_clock : world (list Z) :=
  set_tls (store 3%nat Currenton_Clock {| stack := ["noon"%string] |} no_storage)
          nothing_yet.

Definition integers_only : prog (list Z) :=
  Get Currenton_Integer (fun c =>
    MakeCurrent Currenton_Integer eleven
      (Get Currenton_Integer (fun c' =>
         Modify (fun seen => getValue c :: getValue c' :: seen) Return))
      Return).

End Demo.

(** * Properties *)

Section Properties.

Context {I : Instantiations}.
Local Open Scope cxx_scope.

(** ** Storage *)

Lemma store_same (i : tid) (t : ty) (c : Currenton (El t)) (m : storage) :
  store i t c m i t = Some c.
Proof.
  unfold store. rewrite Nat.eqb_refl.
  destruct (ty_eq_dec t t) as [e|n]; [|contradiction].
  now rewrite (UIP_dec ty_eq_dec e eq_refl).
Qed.

Lemma store_other (i j : tid) (t t' : ty) (c : Currenton (El t)) (m : storage) :
  j <> i \/ t' <> t -> store i t c m j t' = m j t'.
Proof.
  intros H. unfold store.
  destruct (Nat.eqb i j) eqn:E; [|reflexivity].
  apply Nat.eqb_eq in E.
  destruct (ty_eq_dec t t') as [e|n]; [|reflexivity].
  destruct H as [H|H]; congruence.
Qed.

(** ** A call on the stack of thread [i] for [t] reads and writes that
    stack and nothing else. *)

Section OnStack.
Context {U A : Type} (i : tid) (t : ty).
Variable op : list (El t) -> option (A * list (El t)).

Lemma on_stack_frame (w : world U) (j : tid) (t' : ty) :
  j <> i \/ t' <> t -> tls (snd (on_stack i t op w)) j t' = tls w j t'.
Proof.
  intros H. unfold on_stack, getCurrenton, construct.
  destruct (tls w i t) as [c|]; simpl;
    destruct (op _) as [[a s']|]; simpl;
    rewrite ?store_other by exact H; reflexivity.
Qed.

Lemma on_stack_user (w : world U) : user (snd (on_stack i t op w)) = user w.
Proof.
  unfold on_stack, getCurrenton, construct.
  destruct (tls w i t) as [c|]; simpl; destruct (op _) as [[a s']|]; reflexivity.
Qed.

Lemma on_stack_returned (w : world U) (a : A) (s' : list (El t)) :
  op (stack_at w i t) = Some (a, s') ->
  fst (on_stack i t op w) = Returned a /\ stack_at (snd (on_stack i t op w)) i t = s'.
Proof.
  unfold on_stack, getCurrenton, construct, stack_at.
  destruct (tls w i t) as [c|]; simpl; intros ->; simpl;
    rewrite store_same; auto.
Qed.

Lemma on_stack_undefined (w : world U) :
  op (stack_at w i t) = None ->
  fst (on_stack i t op w) = Undefined
  /\ stack_at (snd (on_stack i t op w)) i t = stack_at w i t.
Proof.
  unfold on_stack, getCurrenton, construct, stack_at.
  destruct (tls w i t) as [c|] eqn:E; simpl; intros ->; simpl.
  - now rewrite E.
  - now rewrite store_same.
Qed.

Lemma on_stack_stack_other (w : world U) (j : tid) (t' : ty) :
  j <> i \/ t' <> t ->
  stack_at (snd (on_stack i t op w)) j t' = stack_at w j t'.
Proof.
  intros H. unfold stack_at. now rewrite on_stack_frame.
Qed.
End OnStack.

(** ** [get] *)

Section Get.
Context {U : Type} (i : tid) (t : ty).

Lemma get_outcome (w : world U) :
  fst (get i t w) =
  match stack_at w i t with
  | x :: _ => Returned x
  | [] => Thrown NoCurrentValue
  end.
Proof.
  unfold get, bind.
  destruct (on_stack_returned i t stack_empty w (StdStack.empty (stack_at w i t))
              (stack_at w i t) eq_refl) as [Ho Hs].
  destruct (on_stack i t stack_empty w) as [o w1]; simpl in *; subst o.
  destruct (stack_at w i t) as [|x s] eqn:E; simpl; [reflexivity|].
  destruct (on_stack_returned i t stack_top w1 x (x :: s)) as [Ho' _].
  { now rewrite Hs. }
  exact Ho'.
Qed.

Lemma get_stack (w : world U) (j : tid) (t' : ty) :
  stack_at (snd (get i t w)) j t' = stack_at w j t'.
Proof.
  assert (K : forall (w0 : world U) A (op : list (El t) -> option (A * list (El t))),
             (forall s, match op s with Some (_, s') => s' = s | None => True end) ->
             stack_at (snd (on_stack i t op w0)) j t' = stack_at w0 j t').
  { intros w0 A op Hop.
    destruct (Nat.eq_dec j i) as [->|nj].
    - destruct (ty_eq_dec t' t) as [->|nt].
      + specialize (Hop (stack_at w0 i t)).
        destruct (op (stack_at w0 i t)) as [[a s']|] eqn:E.
        * subst s'. now destruct (on_stack_returned i t op w0 _ _ E).
        * now destruct (on_stack_undefined i t op w0 E).
      + apply on_stack_stack_other; auto.
    - apply on_stack_stack_other; auto. }
  unfold get, bind.
  pose proof (K w bool stack_empty (fun s => eq_refl)) as H1.
  destruct (on_stack i t stack_empty w) as [[e| |] w1]; simpl in *; auto.
  destruct e; simpl; [exact H1|].
  rewrite <- H1. apply K. intros [|x s]; simpl; auto.
Qed.

Lemma get_frame (w : world U) (j : tid) (t' : ty) :
  j <> i \/ t' <> t -> tls (snd (get i t w)) j t' = tls w j t'.
Proof.
  intros H. unfold get, bind.
  pose proof (on_stack_frame i t stack_empty w j t' H) as H1.
  destruct (on_stack i t stack_empty w) as [[e| |] w1]; simpl in *; auto.
  destruct e; simpl; [exact H1|].
  rewrite <- H1. now apply on_stack_frame.
Qed.

Lemma get_user (w : world U) : user (snd (get i t w)) = user w.
Proof.
  unfold get, bind.
  pose proof (on_stack_user i t stack_empty w) as H1.
  destruct (on_stack i t stack_empty w) as [[e| |] w1]; simpl in *; auto.
  destruct e; simpl; [exact H1|].
  rewrite <- H1. apply on_stack_user.
Qed.
End Get.


(** ** [makeCurrent] *)

Section MakeCurrent.
Context {U : Type} (i : tid) (t : ty) (v : El t).

(** The state the action starts in. *)
Lemma push_outcome (w : world U) :
  fst (on_stack i t (stack_push v) w) = Returned tt.
Proof. now destruct (on_stack_returned i t (stack_push v) w tt _ eq_refl). Qed.

Lemma push_stack (w : world U) :
  stack_at (snd (on_stack i t (stack_push v) w)) i t = v :: stack_at w i t.
Proof. now destruct (on_stack_returned i t (stack_push v) w tt _ eq_refl). Qed.

Lemma pop_outcome (w : world U) (x : El t) (s : list (El t)) :
  stack_at w i t = x :: s ->
  fst (on_stack i t stack_pop w) = Returned tt
  /\ stack_at (snd (on_stack i t stack_pop w)) i t = s.
Proof.
  intros E. apply on_stack_returned. now rewrite E.
Qed.

Lemma makeCurrent_unfold (f : M U unit) (w : world U) :
  makeCurrent i t v f w =
  match f (snd (on_stack i t (stack_push v) w)) with
  | (Returned _, w2) => on_stack i t stack_pop w2
  | (Thrown e, w2) =>
      match on_stack i t stack_pop w2 with
      | (Returned _, w3) => (Thrown e, w3)
      | other => other
      end
  | (Undefined, w2) => (Undefined, w2)
  end.
Proof.
  unfold makeCurrent, bind, try_catch_all.
  pose proof (push_outcome w) as Hp.
  destruct (on_stack i t (stack_push v) w) as [o w1]; simpl in *; subst o.
  destruct (f w1) as [[[]|e|] w2]; try reflexivity.
  destruct (on_stack i t stack_pop w2) as [[[]|e'|] w3]; reflexivity.
Qed.

Lemma makeCurrent_restores (f : M U unit) :
  restores f -> restores (makeCurrent i t v f).
Proof.
  intros Hf w. rewrite makeCurrent_unfold.
  pose proof (push_stack w) as Hpush.
  pose proof (fun j t' => on_stack_stack_other i t (stack_push v) w j t') as Hother.
  set (w1 := snd (on_stack i t (stack_push v) w)) in *.
  destruct (Hf w1) as [Hdef Hsame].
  destruct (f w1) as [o w2]; simpl in *.
  assert (Hpop : stack_at w2 i t = v :: stack_at w i t) by now rewrite Hsame.
  destruct (pop_outcome w2 _ _ Hpop) as [Ho Hs].
  assert (Hall : forall j t', stack_at (snd (on_stack i t stack_pop w2)) j t'
                              = stack_at w j t').
  { intros j t'.
    destruct (Nat.eq_dec j i) as [->|nj];
      [destruct (ty_eq_dec t' t) as [->|nt]|].
    - exact Hs.
    - rewrite on_stack_stack_other, Hsame by auto. apply Hother; auto.
    - rewrite on_stack_stack_other, Hsame by auto. apply Hother; auto. }
  destruct (on_stack i t stack_pop w2) as [o3 w3]; simpl in *; subst o3.
  destruct o as [[]|e|]; simpl; try (split; [discriminate|exact Hall]).
  contradiction.
Qed.
End MakeCurrent.

(** ** What a call depends on

    A call on the stack of thread [i] for [t] gives the same result in two
    states that have the same storage there, whatever else differs. *)

Section Agree.
Context {U : Type} (P : tid -> ty -> Prop) (i : tid).

Lemma on_stack_agree {A} (t : ty) (op : list (El t) -> option (A * list (El t)))
    (w w' : world U) :
  P i t -> agree P w w' ->
  same_at P (on_stack i t op w) (on_stack i t op w').
Proof.
  intros Pit [Hu Hs].
  assert (Hl : fst (on_stack i t op w) = fst (on_stack i t op w')
               /\ tls (snd (on_stack i t op w)) i t
                  = tls (snd (on_stack i t op w')) i t).
  { unfold on_stack, getCurrenton, construct.
    rewrite <- (Hs i t Pit).
    destruct (tls w i t) as [c|]; simpl;
      destruct (op _) as [[a s']|]; simpl;
      rewrite ?store_same; auto. }
  destruct Hl as [Ho Hit].
  split; [exact Ho|]. split.
  - now rewrite !on_stack_user.
  - intros k t' Pk.
    destruct (Nat.eq_dec k i) as [->|nk];
      [destruct (ty_eq_dec t' t) as [->|nt]|].
    + exact Hit.
    + rewrite !on_stack_frame by auto. now apply Hs.
    + rewrite !on_stack_frame by auto. now apply Hs.
Qed.

Lemma bind_agree {A B} (m m' : M U A) (k k' : A -> M U B) (w w' : world U) :
  same_at P (m w) (m' w') ->
  (forall a w1 w1', agree P w1 w1' -> same_at P (k a w1) (k' a w1')) ->
  same_at P (bind m k w) (bind m' k' w').
Proof.
  intros [Ho Ha] Hk. unfold bind.
  destruct (m w) as [o w1], (m' w') as [o' w1']; simpl in *; subst o'.
  destruct o as [a|e|]; [now apply Hk| |]; now split.
Qed.

Lemma get_agree (t : ty) (w w' : world U) :
  P i t -> agree P w w' -> same_at P (get i t w) (get i t w').
Proof.
  intros Pit Hw. unfold get.
  apply bind_agree; [now apply on_stack_agree|].
  intros e w1 w1' H1. destruct e; simpl.
  - now split.
  - now apply on_stack_agree.
Qed.

Lemma makeCurrent_agree (t : ty) (v : El t) (f f' : M U unit) (w w' : world U) :
  P i t ->
  (forall w1 w1', agree P w1 w1' -> same_at P (f w1) (f' w1')) ->
  agree P w w' ->
  same_at P (makeCurrent i t v f w) (makeCurrent i t v f' w').
Proof.
  intros Pit Hf Hw. unfold makeCurrent.
  apply bind_agree; [now apply on_stack_agree|].
  intros _ w1 w1' H1.
  apply bind_agree; [|intros; now apply on_stack_agree].
  unfold try_catch_all.
  destruct (Hf w1 w1' H1) as [Ho Ha].
  destruct (f w1) as [o w2], (f' w1') as [o' w2']; simpl in *; subst o'.
  destruct o as [[]|e|]; [now split| |now split].
  apply bind_agree; [now apply on_stack_agree|].
  intros; now split.
Qed.

Lemma run_agree (Q : ty -> Prop) (p : prog U) :
  (forall t, Q t -> P i t) -> within Q p ->
  forall w w', agree P w w' -> same_at P (run i p w) (run i p w').
Proof.
  intros QP.
  induction p as [ | e | t k IH | t v f IHf k IHk | body IHb handler IHh k IHk
                 | g k IHk | k IH | child _ k IHk ]; simpl; intros Hp w w' Hw.
  - now split.
  - now split.
  - destruct Hp as [Qt Hk].
    apply bind_agree; [apply get_agree; auto|].
    intros x w1 w1' H1. now apply IH.
  - destruct Hp as (Qt & Hf & Hk).
    apply bind_agree; [|intros; now apply IHk].
    apply makeCurrent_agree; auto.
  - destruct Hp as (Hb & Hh & Hk).
    apply bind_agree; [|intros; now apply IHk].
    unfold try_catch.
    destruct (IHb Hb w w' Hw) as [Ho Ha].
    destruct (run i body w) as [o w1], (run i body w') as [o' w1'];
      simpl in *; subst o'.
    destruct o as [[]|e|]; [now split| |now split].
    now apply IHh.
  - apply bind_agree; [|intros; now apply IHk].
    destruct Hw as [Hu Hs]. unfold modify, set_user. split; [reflexivity|].
    split; simpl; [now rewrite Hu|exact Hs].
  - destruct Hw as [Hu Hs]. rewrite <- Hu. apply IH; [apply Hp|now split].
  - destruct Hp as [_ Hk]. now apply IHk.
Qed.
End Agree.

(** ** Client programs keep the discipline *)

Lemma bind_restores {U} (m : M U unit) (k : unit -> M U unit) :
  restores m -> (forall x, restores (k x)) -> restores (bind m k).
Proof.
  intros Hm Hk w. unfold bind.
  destruct (Hm w) as [Hd Hs].
  destruct (m w) as [[x|e|] w1]; simpl in *.
  - destruct (Hk x w1) as [Hd' Hs']. split; [exact Hd'|].
    intros j t. now rewrite Hs'.
  - split; [discriminate|exact Hs].
  - contradiction.
Qed.

Lemma run_restores {U} (i : tid) (p : prog U) : restores (run i p).
Proof.
  induction p as [ | e | t k IH | t v f IHf k IHk | body IHb handler IHh k IHk
                 | g k IHk | k IH | child _ k IHk ]; simpl.
  - intros w. split; [discriminate|reflexivity].
  - intros w. split; [discriminate|reflexivity].
  - intros w. unfold bind.
    pose proof (get_outcome i t w) as Ho.
    pose proof (get_stack i t w) as Hs.
    destruct (get i t w) as [o w1]; simpl in *.
    destruct (stack_at w i t) as [|x s]; subst o.
    + split; [discriminate|exact Hs].
    + destruct (IH x w1) as [Hd Hs']. split; [exact Hd|].
      intros j t'. now rewrite Hs'.
  - apply bind_restores; [now apply makeCurrent_restores|auto].
  - apply bind_restores; [|auto].
    intros w. unfold try_catch.
    destruct (IHb w) as [Hd Hs].
    destruct (run i body w) as [[[]|e|] w1]; simpl in *.
    + split; [discriminate|exact Hs].
    + destruct (IHh e w1) as [Hd' Hs']. split; [exact Hd'|].
      intros j t. now rewrite Hs'.
    + contradiction.
  - apply bind_restores; [|auto].
    intros w. split; [discriminate|reflexivity].
  - intros w. apply IH.
  - exact IHk.
Qed.


(** What [makeCurrent] does around an action that leaves the stack as it
    found it: the pop finds the pushed value on top, and the call ends as
    the action ended. *)
Lemma makeCurrent_around {U} (i : tid) (t : ty) (v : El t) (f : M U unit)
    (w : world U) :
  let w1 := snd (on_stack i t (stack_push v) w) in
  let w2 := snd (f w1) in
  fst (f w1) <> Undefined ->
  stack_at w2 i t = stack_at w1 i t ->
  stack_at w2 i t = v :: stack_at w i t
  /\ fst (on_stack i t stack_pop w2) = Returned tt
  /\ stack_at (snd (on_stack i t stack_pop w2)) i t = stack_at w i t
  /\ makeCurrent i t v f w = (fst (f w1), snd (on_stack i t stack_pop w2)).
Proof.
  intros w1 w2 Hd Hs.
  assert (Hpop : stack_at w2 i t = v :: stack_at w i t).
  { rewrite Hs. apply push_stack. }
  destruct (pop_outcome i t w2 _ _ Hpop) as [Ho Hafter].
  repeat split; auto.
  rewrite makeCurrent_unfold. fold w1. unfold w2 in *.
  destruct (f w1) as [o w2']; simpl in *.
  destruct (on_stack i t stack_pop w2') as [o3 w3]; simpl in *; subst o3.
  destruct o as [[]|e|]; try reflexivity. contradiction.
Qed.

Lemma makeCurrent_spec {U} (i : tid) (t : ty) (v : El t) (f : M U unit)
    (w : world U) :
  restores f ->
  let w1 := snd (on_stack i t (stack_push v) w) in
  let w2 := snd (f w1) in
  stack_at w2 i t = v :: stack_at w i t
  /\ fst (on_stack i t stack_pop w2) = Returned tt
  /\ makeCurrent i t v f w = (fst (f w1), snd (on_stack i t stack_pop w2)).
Proof.
  intros Hf w1 w2.
  destruct (Hf w1) as [Hd Hs].
  destruct (makeCurrent_around i t v f w Hd (Hs i t)) as (H1 & H2 & _ & H3).
  auto.
Qed.

(** ** The scoped reading and the stack *)

Lemma install_same (t : ty) (v : El t) (r : env) : install t v r t = v :: r t.
Proof.
  unfold install. destruct (ty_eq_dec t t) as [e|n]; [|contradiction].
  now rewrite (UIP_dec ty_eq_dec e eq_refl).
Qed.

Lemma install_other (t t' : ty) (v : El t) (r : env) :
  t' <> t -> install t v r t' = r t'.
Proof.
  intros H. unfold install. destruct (ty_eq_dec t t') as [e|n]; congruence.
Qed.

Lemma install_ext (t : ty) (v : El t) (r r' : env) :
  (forall t', r t' = r' t') -> forall t', install t v r t' = install t v r' t'.
Proof.
  intros H t'. unfold install. destruct (ty_eq_dec t t'); now rewrite H.
Qed.

Lemma scoped_ext {U} (p : prog U) :
  forall (r r' : env) (u : U),
    (forall t, r t = r' t) -> scoped p r u = scoped p r' u.
Proof.
  induction p as [ | e | t k IH | t v f IHf k IHk | body IHb handler IHh k IHk
                 | g k IHk | k IH | child _ k IHk ]; simpl; intros r r' u H; auto.
  - rewrite <- H. destruct (r t); auto.
  - rewrite (IHf _ _ u (install_ext t v r r' H)).
    destruct (scoped f (install t v r') u) as [[[]|e|] u']; auto.
  - rewrite (IHb _ _ u H).
    destruct (scoped body r' u) as [[[]|e|] u']; auto.
    rewrite (IHh e _ _ u' H).
    destruct (scoped (handler e) r' u') as [[[]|e'|] u'']; auto.
Qed.

Lemma push_install {U} (i : tid) (t : ty) (v : El t) (w : world U) (t' : ty) :
  stack_at (snd (on_stack i t (stack_push v) w)) i t'
  = install t v (fun x => stack_at w i x) t'.
Proof.
  destruct (ty_eq_dec t' t) as [->|n].
  - now rewrite install_same, push_stack.
  - rewrite install_other by exact n. apply on_stack_stack_other; auto.
Qed.

Lemma run_scoped {U} (i : tid) (p : prog U) :
  forall w : world U,
    scoped p (fun t => stack_at w i t) (user w)
    = (fst (run i p w), user (snd (run i p w))).
Proof.
  induction p as [ | e | t k IH | t v f IHf k IHk | body IHb handler IHh k IHk
                 | g k IHk | k IH | child _ k IHk ]; simpl; intros w; auto.
  - unfold bind.
    pose proof (get_outcome i t w) as Ho.
    pose proof (get_stack i t w) as Hs.
    pose proof (get_user i t w) as Hu.
    destruct (get i t w) as [o w1]; simpl in *.
    destruct (stack_at w i t) as [|x s]; subst o; simpl.
    + now rewrite Hu.
    + rewrite <- (IH x w1), Hu. apply scoped_ext. intros t'. now rewrite Hs.
  - unfold bind.
    destruct (makeCurrent_spec i t v (run i f) w (run_restores i f))
      as (Htop & Hpop & ->).
    pose proof (IHf (snd (on_stack i t (stack_push v) w))) as Hf.
    rewrite on_stack_user in Hf.
    rewrite (scoped_ext f (install t v (fun x => stack_at w i x))
               (fun t' => stack_at (snd (on_stack i t (stack_push v) w)) i t')
               (user w) (fun t' => eq_sym (push_install i t v w t'))), Hf.
    destruct (run_restores i f (snd (on_stack i t (stack_push v) w))) as [Hd Hs].
    pose proof (on_stack_user i t stack_pop
                  (snd (run i f (snd (on_stack i t (stack_push v) w))))) as Hu3.
    assert (Hback : forall t', stack_at
              (snd (on_stack i t stack_pop
                      (snd (run i f (snd (on_stack i t (stack_push v) w)))))) i t'
              = stack_at w i t').
    { intros t'. destruct (ty_eq_dec t' t) as [->|n].
      - now destruct (pop_outcome i t _ _ _ Htop).
      - rewrite on_stack_stack_other, Hs by auto.
        apply on_stack_stack_other; auto. }
    destruct (run i f (snd (on_stack i t (stack_push v) w))) as [o w2]; simpl in *.
    destruct (on_stack i t stack_pop w2) as [o3 w3]; simpl in *.
    destruct o as [[]|e|]; simpl; try now rewrite Hu3.
    rewrite <- (IHk w3), Hu3. apply scoped_ext. intros t'. now rewrite Hback.
  - unfold bind, try_catch.
    rewrite IHb.
    destruct (run_restores i body w) as [Hd Hs].
    destruct (run i body w) as [[[]|e|] w1]; simpl in *; auto.
    + rewrite <- (IHk w1). apply scoped_ext. intros t. now rewrite Hs.
    + rewrite (scoped_ext (handler e) _ (fun t => stack_at w1 i t) (user w1))
        by (intros t; now rewrite Hs).
      rewrite IHh.
      destruct (run_restores i (handler e) w1) as [Hd' Hs'].
      destruct (run i (handler e) w1) as [[[]|e'|] w2]; simpl in *; auto.
      rewrite <- (IHk w2). apply scoped_ext. intros t. now rewrite Hs', Hs.
  - unfold bind, modify. simpl. rewrite <- (IHk (set_user (g (user w)) w)).
    reflexivity.
Qed.


(** ** The contract of [get] and [makeCurrent] on one thread *)

(** C1.  On one thread, whatever the nesting of [makeCurrent] calls, every
    [get] returns the value of the innermost [makeCurrent] that has not
    been left yet.  The action of [makeCurrent(v, ...)] starts with [v]
    current; and a client program run on the stack ([run], with the pushes
    and pops of the source) ends the same way, with the same state, as
    under the scoped reading ([scoped]), where [get] is by definition the
    most recent value still in force.  What the program does next depends
    on every value it reads, so the two agree at every [get]. *)
Theorem get_returns_innermost {U} (i : tid) (p : prog U) (w : world U) :
  (forall t (v : El t),
      fst (get i t (snd (on_stack i t (stack_push v) w))) = Returned v)
  /\ (fst (run i p w), user (snd (run i p w)))
     = scoped p (fun t => stack_at w i t) (user w).
Proof.
  split.
  - intros t v. now rewrite get_outcome, push_stack.
  - symmetry. apply run_scoped.
Qed.

(** C2.  When the action throws [e], [makeCurrent] finds the value it
    pushed on top, pops it, and throws the same [e]: in the state where the
    caller sees the exception the stack is back to what it was. *)
Theorem makeCurrent_rethrows {U} (i : tid) (t : ty) (v : El t) (p : prog U)
    (w : world U) (e : exception) :
  fst (run i p (snd (on_stack i t (stack_push v) w))) = Thrown e ->
  StdStack.top (stack_at (snd (run i p (snd (on_stack i t (stack_push v) w)))) i t)
  = Some v
  /\ fst (makeCurrent i t v (run i p) w) = Thrown e
  /\ stack_at (snd (makeCurrent i t v (run i p) w)) i t = stack_at w i t.
Proof.
  intros He.
  destruct (makeCurrent_spec i t v (run i p) w (run_restores i p))
    as (Htop & _ & Hm).
  split; [now rewrite Htop|].
  split; [now rewrite Hm|].
  now destruct (makeCurrent_restores i t v (run i p) (run_restores i p) w) as [_ ->].
Qed.

(** C4.  On an empty stack, and so on a thread that never called
    [makeCurrent], [get] throws [std::runtime_error("No current object")]:
    it neither returns nor runs into undefined behaviour, and a handler
    around the call takes over with that exception. *)
Theorem get_without_current {U} (i : tid) (t : ty) (w : world U) :
  stack_at w i t = [] ->
  fst (get i t w) = Thrown (runtime_error "No current object")
  /\ forall h : exception -> M U (El t),
       try_catch (get i t) h w
       = h (runtime_error "No current object") (snd (get i t w)).
Proof.
  intros E. pose proof (get_outcome i t w) as Ho. rewrite E in Ho.
  split; [exact Ho|].
  intros h. unfold try_catch.
  destruct (get i t w) as [o w1]; simpl in *. now subst o.
Qed.

(** C5.  Both pops of [makeCurrent] find a non-empty stack whose top is the
    value the call pushed, and take off exactly that value; no call of a
    client program, however nested and however it ends, runs into the
    undefined behaviour of a pop on an empty stack. *)
Theorem makeCurrent_pop_defined {U} (i : tid) (t : ty) (v : El t) (p : prog U)
    (w : world U) :
  let at_pop := snd (run i p (snd (on_stack i t (stack_push v) w))) in
  StdStack.empty (stack_at at_pop i t) = false
  /\ StdStack.top (stack_at at_pop i t) = Some v
  /\ StdStack.pop (stack_at at_pop i t) = Some (stack_at w i t)
  /\ fst (on_stack i t stack_pop at_pop) = Returned tt
  /\ fst (makeCurrent i t v (run i p) w) <> Undefined
  /\ fst (run i p w) <> Undefined.
Proof.
  intros at_pop.
  destruct (makeCurrent_spec i t v (run i p) w (run_restores i p))
    as (Htop & Hpop & _).
  fold at_pop in Htop, Hpop. rewrite Htop. simpl.
  repeat split; auto.
  - now destruct (makeCurrent_restores i t v (run i p) (run_restores i p) w).
  - now destruct (run_restores i p w).
Qed.

(** C6, as the code has it.  [makeCurrent] is a [void] function and its
    action a [std::function<void()>]: whatever the action returns, the call
    returns nothing; when the action throws, the call throws the same
    exception, the pushed value popped. *)
Theorem makeCurrent_returns_void {U R} (i : tid) (t : ty) (v : El t)
    (a : M U R) (w : world U) :
  let w1 := snd (on_stack i t (stack_push v) w) in
  stack_at (snd (a w1)) i t = stack_at w1 i t ->
  (forall r, fst (a w1) = Returned r ->
             fst (makeCurrent i t v (as_void a) w) = Returned tt)
  /\ (forall e, fst (a w1) = Thrown e ->
                fst (makeCurrent i t v (as_void a) w) = Thrown e
                /\ stack_at (snd (makeCurrent i t v (as_void a) w)) i t
                   = stack_at w i t).
Proof.
  intros w1 Hs.
  assert (Hv : as_void a w1
               = (match fst (a w1) with
                  | Returned _ => Returned tt
                  | Thrown e => Thrown e
                  | Undefined => Undefined
                  end, snd (a w1))).
  { unfold as_void, bind, ret. now destruct (a w1) as [[r|e|] w2]. }
  split; [intros r Hr|intros e He].
  - destruct (makeCurrent_around i t v (as_void a) w) as (_ & _ & _ & Hm).
    + fold w1. rewrite Hv, Hr. discriminate.
    + fold w1. now rewrite Hv.
    + fold w1 in Hm. now rewrite Hm, Hv, Hr.
  - destruct (makeCurrent_around i t v (as_void a) w) as (_ & _ & Hb & Hm).
    + fold w1. rewrite Hv, He. discriminate.
    + fold w1. now rewrite Hv.
    + fold w1 in Hm, Hb. rewrite Hm, Hv, He. simpl.
      rewrite Hv in Hb. auto.
Qed.

(** C9.  [get] reads: whether it returns the top or throws, every stack is
    afterwards what it was, the calling thread's included. *)
Theorem get_pure_read {U} (i : tid) (t : ty) (w : world U) (j : tid) (t' : ty) :
  stack_at (snd (get i t w)) j t' = stack_at w j t'
  /\ List.length (stack_at (snd (get i t w)) j t') = List.length (stack_at w j t')
  /\ fst (get i t w) <> Undefined.
Proof.
  rewrite get_stack, get_outcome. repeat split.
  destruct (stack_at w i t); discriminate.
Qed.

(** C10.  [makeCurrent] calls its action once: an action that counts its
    calls has counted one more when [makeCurrent] is over, however the
    action ends. *)
Theorem makeCurrent_calls_once {U} (i : tid) (t : ty) (v : El t) (f : M U unit)
    (w : world (nat * U)) :
  fst (user (snd (makeCurrent i t v (counting f) w))) = S (fst (user w)).
Proof.
  rewrite makeCurrent_unfold. unfold counting.
  rewrite on_stack_user.
  destruct (f _) as [[[]|e|] w2]; simpl.
  - now rewrite on_stack_user.
  - pose proof (on_stack_user i t stack_pop
                  (set_user (S (fst (user w)), user w2) w2)) as Hu.
    destruct (on_stack i t stack_pop _) as [[[]|e'|] w3]; simpl in *;
      now rewrite Hu.
  - reflexivity.
Qed.

(** C7.  Two instantiations do not meet.  Calls on [Currenton<a>] leave
    the storage of [Currenton<b>] of every thread alone (what is there when
    [makeCurrent] is over is what its action left), and give the same
    results whatever that storage holds. *)
Theorem registries_independent {U} (a b : ty) (i j : tid) (w : world U) :
  a <> b ->
  tls (snd (get i a w)) j b = tls w j b
  /\ (forall v (f : M U unit),
        tls (snd (on_stack i a (stack_push v) w)) j b = tls w j b
        /\ tls (snd (makeCurrent i a v f w)) j b
           = tls (snd (f (snd (on_stack i a (stack_push v) w)))) j b)
  /\ (forall w' : world U,
        agree (fun _ t => t <> b) w w' ->
        fst (get i a w) = fst (get i a w')
        /\ forall v (p : prog U),
             avoids b p ->
             same_at (fun _ t => t <> b)
                     (makeCurrent i a v (run i p) w)
                     (makeCurrent i a v (run i p) w')).
Proof.
  intros Hab.
  assert (Hba : j <> i \/ b <> a) by (right; congruence).
  split; [now apply get_frame|]. split.
  - intros v f. split; [now apply on_stack_frame|].
    rewrite makeCurrent_unfold.
    destruct (f _) as [[[]|e|] w2]; simpl.
    + now apply on_stack_frame.
    + pose proof (on_stack_frame i a (@stack_pop (El a)) w2 j b Hba) as Hp.
      destruct (on_stack i a stack_pop w2) as [[[]|e'|] w3]; exact Hp.
    + reflexivity.
  - intros w' Hw. split.
    + now apply (get_agree (fun _ t => t <> b) i a).
    + intros v p Hp.
      apply makeCurrent_agree; auto.
      intros w1 w1' H1.
      apply (run_agree (fun _ t => t <> b) i (fun t => t <> b)); auto.
Qed.


(** ** Threads *)

Section Threads.
Context {U : Type}.

Ltac same_call H :=
  let o := fresh "o" in let w1 := fresh "w" in
  let o' := fresh "o" in let w1' := fresh "w" in
  let Ho := fresh "Ho" in let Ha := fresh "Ha" in
  destruct H as [Ho Ha];
  match type of Ho with
  | fst ?x = fst ?y =>
      destruct x as [o w1]; destruct y as [o' w1']; simpl in Ho, Ha; subst o';
      destruct o as [?|?|]; simpl; auto
  end.

(** A step of thread [i] is decided by the storage of thread [i] and the
    thread's own state. *)
Lemma step_thread_agree (i : tid) (c : config U) (w w' : world U) :
  agree (own i) w w' ->
  fst (fst (step_thread i c w)) = fst (fst (step_thread i c w'))
  /\ snd (step_thread i c w) = snd (step_thread i c w')
  /\ agree (own i) (snd (fst (step_thread i c w))) (snd (fst (step_thread i c w'))).
Proof.
  intros Hw.
  assert (Hpop : forall t, same_at (own i) (on_stack i t (@stack_pop (El t)) w)
                                   (on_stack i t stack_pop w'))
    by (intros; now apply on_stack_agree).
  destruct c as [p K|o]; [|simpl; auto].
  destruct p as [ | e | t k | t v f k | body handler k | g k | k | child k ]; simpl.
  - destruct K as [|[t k|h k|k] K']; simpl; auto.
    specialize (Hpop t). same_call Hpop.
  - destruct K as [|[t k|h k|k] K']; simpl; auto.
    specialize (Hpop t). same_call Hpop.
  - pose proof (get_agree (own i) i t w w' eq_refl Hw) as Hg. same_call Hg.
  - pose proof (on_stack_agree (own i) i t (stack_push v) w w' eq_refl Hw) as Hg.
    same_call Hg.
  - auto.
  - destruct Hw as [Hu Hs]. repeat split; simpl; auto. now rewrite Hu.
  - destruct Hw as [Hu Hs]. rewrite Hu. repeat split; auto.
  - auto.
Qed.

(** A step of thread [i] leaves the storage of every other thread alone. *)
Lemma step_thread_frame (i j : tid) (t : ty) (c : config U) (w : world U) :
  j <> i -> tls (snd (fst (step_thread i c w))) j t = tls w j t.
Proof.
  intros Hj.
  assert (Hpop : forall t', tls (snd (on_stack i t' (@stack_pop (El t')) w)) j t
                            = tls w j t)
    by (intros; apply on_stack_frame; auto).
  destruct c as [p K|o]; [|reflexivity].
  destruct p as [ | e | t0 k | t0 v f k | body handler k | g k | k | child k ];
    simpl; auto.
  - destruct K as [|[t0 k|h k|k] K']; simpl; auto.
    specialize (Hpop t0).
    destruct (on_stack i t0 stack_pop w) as [[[]|e|] w1]; exact Hpop.
  - destruct K as [|[t0 k|h k|k] K']; simpl; auto.
    specialize (Hpop t0).
    destruct (on_stack i t0 stack_pop w) as [[[]|e'|] w1]; exact Hpop.
  - pose proof (get_frame i t0 w j t (or_introl Hj)) as Hg.
    destruct (get i t0 w) as [[x|e|] w1]; exact Hg.
  - pose proof (on_stack_frame i t0 (stack_push v) w j t (or_introl Hj)) as Hg.
    destruct (on_stack i t0 (stack_push v) w) as [[[]|e|] w1]; exact Hg.
Qed.

(** *** Lists of threads *)

Lemma length_replace_nth {A} (n : nat) (x : A) (l : list A) :
  List.length (replace_nth n x l) = List.length l.
Proof.
  revert n. induction l as [|y l IH]; intros [|n]; simpl; auto.
Qed.

Lemma nth_error_replace_nth_same {A} (n : nat) (x : A) (l : list A) :
  n < List.length l -> nth_error (replace_nth n x l) n = Some x.
Proof.
  revert n. induction l as [|y l IH]; intros [|n]; simpl; intros H;
    try lia; auto.
  apply IH. lia.
Qed.

Lemma nth_error_replace_nth_other {A} (n m : nat) (x : A) (l : list A) :
  m <> n -> nth_error (replace_nth n x l) m = nth_error l m.
Proof.
  revert n m. induction l as [|y l IH]; intros [|n] [|m]; simpl; intros H;
    auto; try contradiction.
Qed.

(** *** One turn *)

Lemma step_pool_length (j : tid) (P : pool U) :
  List.length (threads P) <= List.length (threads (step_pool j P)).
Proof.
  unfold step_pool.
  destruct (nth_error (threads P) j) as [[c u]|]; [|lia].
  destruct (step_thread j c _) as [[c' w'] started]; simpl.
  rewrite length_app, length_replace_nth. lia.
Qed.

(** The turn of another thread changes nothing for thread [i]. *)
Lemma step_pool_other (i j : tid) (P : pool U) :
  j <> i -> i < List.length (threads P) -> same_thread i (step_pool j P) P.
Proof.
  intros Hj Hi. unfold same_thread, step_pool.
  destruct (nth_error (threads P) j) as [[c u]|]; [|auto].
  pose proof (fun t => step_thread_frame j i t c
                {| tls := pool_tls P; cout := pool_cout P; user := u |}
                (not_eq_sym Hj)) as Hf.
  destruct (step_thread j c _) as [[c' w'] started]; simpl in *.
  split; [|exact Hf].
  rewrite nth_error_app1 by (rewrite length_replace_nth; exact Hi).
  apply nth_error_replace_nth_other. auto.
Qed.

(** Its own turn takes thread [i] the same way in two processes where it
    is in the same situation. *)
Lemma step_pool_same (i : tid) (P Q : pool U) :
  i < List.length (threads P) -> i < List.length (threads Q) ->
  same_thread i P Q -> same_thread i (step_pool i P) (step_pool i Q).
Proof.
  intros HP HQ [Hn Hs]. unfold same_thread, step_pool.
  rewrite <- Hn.
  destruct (nth_error (threads P) i) as [[c u]|] eqn:E;
    [|split; [simpl; congruence|assumption]].
  destruct (step_thread_agree i c
              {| tls := pool_tls P; cout := pool_cout P; user := u |}
              {| tls := pool_tls Q; cout := pool_cout Q; user := u |})
    as (Hc & Hst & Hu & Ha).
  { split; [reflexivity|]. intros k t ->. apply Hs. }
  destruct (step_thread i c {| tls := pool_tls P |}) as [[c1 w1] s1].
  destruct (step_thread i c {| tls := pool_tls Q |}) as [[c2 w2] s2].
  simpl in *. subst c2 s2. split.
  - rewrite !nth_error_app1 by (rewrite length_replace_nth; assumption).
    rewrite !nth_error_replace_nth_same by assumption. now rewrite Hu.
  - intros t. now apply Ha.
Qed.

(** A turn of an existing thread stores nothing for the threads that do
    not exist before it, those it starts included. *)
Lemma step_pool_fresh (j : tid) (P : pool U) :
  fresh_beyond P ->
  forall k t, List.length (threads P) <= k -> pool_tls (step_pool j P) k t = None.
Proof.
  intros HP k t Hk. unfold step_pool.
  destruct (nth_error (threads P) j) as [[c u]|] eqn:E; [|now apply HP].
  assert (Hj : j < List.length (threads P))
    by (apply nth_error_Some; congruence).
  pose proof (step_thread_frame j k t c
                {| tls := pool_tls P; cout := pool_cout P; user := u |}) as Hf.
  destruct (step_thread j c _) as [[c' w'] started]; simpl in *.
  rewrite Hf by lia. now apply HP.
Qed.

(** *** Interleavings *)

Lemma schedule_length (turns : list tid) (P : pool U) :
  List.length (threads P) <= List.length (threads (schedule turns P)).
Proof.
  revert P. induction turns as [|j turns IH]; intros P; simpl; [lia|].
  pose proof (step_pool_length j P). pose proof (IH (step_pool j P)). lia.
Qed.

Lemma schedule_fresh (turns : list tid) (P : pool U) :
  fresh_beyond P -> fresh_beyond (schedule turns P).
Proof.
  revert P. induction turns as [|j turns IH]; intros P HP; simpl; [exact HP|].
  apply IH. intros k t Hk. apply step_pool_fresh; [exact HP|].
  pose proof (step_pool_length j P). lia.
Qed.

Lemma boot_fresh (ps : list (prog U * U)) : fresh_beyond (boot ps).
Proof. intros k t _. reflexivity. Qed.

(** Whatever the other threads do in between, thread [i] goes through its
    own turns as if it were alone. *)
Lemma schedule_filter (i : tid) (turns : list tid) :
  forall P Q : pool U,
    i < List.length (threads P) -> i < List.length (threads Q) ->
    same_thread i P Q ->
    same_thread i (schedule turns P) (schedule (filter (Nat.eqb i) turns) Q).
Proof.
  induction turns as [|j turns IH]; intros P Q HP HQ HPQ; simpl; [exact HPQ|].
  destruct (Nat.eqb i j) eqn:E.
  - apply Nat.eqb_eq in E. subst j. simpl.
    apply IH.
    + pose proof (step_pool_length i P). lia.
    + pose proof (step_pool_length i Q). lia.
    + now apply step_pool_same.
  - apply Nat.eqb_neq in E.
    apply IH; [pose proof (step_pool_length j P); lia|exact HQ|].
    destruct (step_pool_other i j P (not_eq_sym E) HP) as [Hn Hs].
    destruct HPQ as [Hn' Hs'].
    split; [congruence|]. intros t. now rewrite Hs.
Qed.

(** A thread that has halted stays as it is. *)
Lemma replace_nth_same {A} (n : nat) (x : A) (l : list A) :
  nth_error l n = Some x -> replace_nth n x l = l.
Proof.
  revert n. induction l as [|y l IH]; intros [|n]; simpl; intros H;
    try discriminate.
  - now inversion H.
  - now rewrite IH.
Qed.

Lemma step_pool_halted (i : tid) (P : pool U) (o : outcome unit) (u : U) :
  nth_error (threads P) i = Some (Halted o, u) -> step_pool i P = P.
Proof.
  intros H. unfold step_pool. rewrite H. simpl.
  rewrite app_nil_r, (replace_nth_same _ _ _ H). now destruct P.
Qed.

Lemma schedule_halted (i : tid) (n : nat) (P : pool U) (o : outcome unit) (u : U) :
  nth_error (threads P) i = Some (Halted o, u) -> schedule (repeat i n) P = P.
Proof.
  intros H. induction n as [|n IH]; simpl; [reflexivity|].
  now rewrite (step_pool_halted _ _ _ _ H).
Qed.

Lemma schedule_app (turns more : list tid) (P : pool U) :
  schedule (turns ++ more) P = schedule more (schedule turns P).
Proof.
  revert P. induction turns as [|j turns IH]; intros P; simpl; auto.
Qed.

Lemma filter_turns_repeat (i : tid) (turns : list tid) :
  filter (Nat.eqb i) turns
  = repeat i (List.length (filter (Nat.eqb i) turns)).
Proof.
  induction turns as [|j turns IH]; simpl; [reflexivity|].
  destruct (Nat.eqb i j) eqn:E; [|exact IH].
  apply Nat.eqb_eq in E. subst j. simpl. now rewrite <- IH.
Qed.

(** *** A thread on its own executes [run] *)

Lemma steps_trans (i : tid) (n m : nat) (c c' : config U) (w w' : world U)
    (r : config U * world U) :
  steps i n c w = (c', w') -> steps i m c' w' = r -> steps i (n + m) c w = r.
Proof.
  revert c w. induction n as [|n IH]; simpl; intros c w H1 H2.
  - now inversion H1; subst.
  - destruct (step_thread i c w) as [[c1 w1] s1]. now apply IH.
Qed.

Lemma threads_execute_run (i : tid) (p : prog U) :
  forall (K : list (frame U)) (w : world U),
  exists n,
    steps i n (Active p K) w
    = (Active (ended (fst (run i p w))) K, snd (run i p w)).
Proof.
  induction p as [ | e | t k IH | t v f IHf k IHk | body IHb handler IHh k IHk
                 | g k IHk | k IH | child _ k IHk ]; intros K w.
  - now exists 0.
  - now exists 0.
  - pose proof (get_outcome i t w) as Ho.
    simpl run. unfold bind.
    destruct (get i t w) as [o w1] eqn:E; simpl in Ho.
    destruct (stack_at w i t) as [|x s]; subst o.
    + exists 1. simpl. now rewrite E.
    + destruct (IH x K w1) as [n Hn]. exists (S n). simpl. now rewrite E.
  - destruct (makeCurrent_spec i t v (run i f) w (run_restores i f))
      as (_ & Hpop & Hm).
    pose proof (push_outcome i t v w) as Hpush.
    destruct (run_restores i f (snd (on_stack i t (stack_push v) w))) as [Hd _].
    simpl run. unfold bind. rewrite Hm.
    destruct (IHf (FPop t k :: K) (snd (on_stack i t (stack_push v) w)))
      as [n1 H1].
    destruct (on_stack i t (stack_push v) w) as [o1 w1] eqn:E1;
      simpl in *; subst o1.
    destruct (run i f w1) as [o w2]; simpl in *.
    destruct (on_stack i t stack_pop w2) as [o3 w3] eqn:E3;
      simpl in *; subst o3.
    destruct o as [[]|e|]; [| |contradiction]; simpl in *.
    + destruct (IHk K w3) as [n2 H2].
      exists (S (n1 + S n2)). simpl. rewrite E1.
      eapply steps_trans; [exact H1|]. simpl. now rewrite E3.
    + exists (S (n1 + 1)). simpl. rewrite E1.
      eapply steps_trans; [exact H1|]. simpl. now rewrite E3.
  - destruct (run_restores i body w) as [Hd _].
    simpl run. unfold bind, try_catch.
    destruct (IHb (FCatch handler k :: K) w) as [n1 H1].
    destruct (run i body w) as [[[]|e|] w1]; [| |contradiction]; simpl in *.
    + destruct (IHk K w1) as [n2 H2].
      exists (S (n1 + S n2)). simpl.
      eapply steps_trans; [exact H1|]. simpl. exact H2.
    + destruct (run_restores i (handler e) w1) as [Hd' _].
      destruct (IHh e (FSeq k :: K) w1) as [n2 H2].
      destruct (run i (handler e) w1) as [[[]|e'|] w2];
        [| |contradiction]; simpl in *.
      * destruct (IHk K w2) as [n3 H3].
        exists (S (n1 + S (n2 + S n3))). simpl.
        eapply steps_trans; [exact H1|]. simpl.
        eapply steps_trans; [exact H2|]. simpl. exact H3.
      * exists (S (n1 + S (n2 + 1))). simpl.
        eapply steps_trans; [exact H1|]. simpl.
        eapply steps_trans; [exact H2|]. reflexivity.
  - destruct (IHk K (set_user (g (user w)) w)) as [n Hn].
    exists (S n). exact Hn.
  - destruct (IH (user w) K w) as [n Hn]. exists (S n). exact Hn.
  - destruct (IHk K w) as [n Hn]. exists (S n). exact Hn.
Qed.
End Threads.

(** C8.  Threads do not see each other's values.  Take any process that
    has run from its start under any interleaving, and any thread [i] in it.
    Under every further interleaving thread [i] is, turn for turn, in the
    configuration, with the state and the stacks, that it reaches when no
    other thread gets a turn at all: every value it reads is one it
    installed itself.  And a thread that a turn starts has, at its start,
    an empty stack for every instantiation. *)
Theorem threads_isolated {U} (ps : list (prog U * U)) (before turns : list tid)
    (i : tid) :
  let P := schedule before (boot ps) in
  i < List.length (threads P) ->
  nth_error (threads (schedule turns P)) i
  = nth_error (threads (schedule (filter (Nat.eqb i) turns) P)) i
  /\ (forall t, pool_stack (schedule turns P) i t
                = pool_stack (schedule (filter (Nat.eqb i) turns) P) i t)
  /\ (forall j k t, List.length (threads P) <= k ->
                    pool_stack (step_pool j P) k t = []).
Proof.
  intros P Hi.
  destruct (schedule_filter i turns P P Hi Hi) as [Hn Hs];
    [split; reflexivity|].
  split; [exact Hn|]. split.
  - intros t. unfold pool_stack. now rewrite Hs.
  - intros j k t Hk. unfold pool_stack.
    rewrite (step_pool_fresh j P); auto.
    apply schedule_fresh, boot_fresh.
Qed.


(** ** Only the current values matter *)

Lemma install_top (t : ty) (v : El t) (r r' : env) :
  (forall x, StdStack.top (r x) = StdStack.top (r' x)) ->
  forall x, StdStack.top (install t v r x) = StdStack.top (install t v r' x).
Proof.
  intros H x. unfold install.
  destruct (ty_eq_dec t x) as [e|n]; [reflexivity|apply H].
Qed.

Lemma scoped_tops {U} (p : prog U) :
  forall (r r' : env) (u : U),
    (forall t, StdStack.top (r t) = StdStack.top (r' t)) ->
    scoped p r u = scoped p r' u.
Proof.
  induction p as [ | e | t k IH | t v f IHf k IHk | body IHb handler IHh k IHk
                 | g k IHk | k IH | child _ k IHk ]; simpl; intros r r' u H; auto.
  - pose proof (H t) as Ht.
    destruct (r t) as [|x s], (r' t) as [|x' s']; simpl in Ht;
      try discriminate; auto.
    inversion Ht; subst. now apply IH.
  - rewrite (IHf _ _ u (install_top t v r r' H)).
    destruct (scoped f (install t v r') u) as [[[]|e|] u']; auto.
  - rewrite (IHb _ _ u H).
    destruct (scoped body r' u) as [[[]|e|] u']; auto.
    rewrite (IHh e _ _ u' H).
    destruct (scoped (handler e) r' u') as [[[]|e'|] u'']; auto.
Qed.

(** X1.  What a client program does is decided by the values on top of
    its thread's stacks and by its own state: run in two states with the
    same tops, it ends the same way with the same state, whatever the
    stacks hold underneath. *)
Theorem run_sees_tops_only {U} (i : tid) (p : prog U) (w w' : world U) :
  user w = user w' ->
  (forall t, StdStack.top (stack_at w i t) = StdStack.top (stack_at w' i t)) ->
  fst (run i p w) = fst (run i p w')
  /\ user (snd (run i p w)) = user (snd (run i p w')).
Proof.
  intros Hu Ht.
  pose proof (run_scoped i p w) as H. pose proof (run_scoped i p w') as H'.
  rewrite (scoped_tops p (fun t => stack_at w i t) (fun t => stack_at w' i t)
             (user w) Ht), Hu, H' in H.
  now inversion H.
Qed.

Lemma install_swap (a b : ty) (va : El a) (vb : El b) (r : env) :
  a <> b ->
  forall t, install a va (install b vb r) t = install b vb (install a va r) t.
Proof.
  intros Hab t. unfold install.
  destruct (ty_eq_dec a t) as [ea|na], (ty_eq_dec b t) as [eb|nb];
    auto; congruence.
Qed.

(** X2.  Values of two instantiations can be installed in either order:
    [makeCurrent] of [a] around [makeCurrent] of [b] around an action ends
    as [makeCurrent] of [b] around [makeCurrent] of [a] around it, with the
    same state, and either way every stack is afterwards what it was. *)
Theorem makeCurrent_order_irrelevant {U} (i : tid) (a b : ty) (va : El a)
    (vb : El b) (f : prog U) (w : world U) :
  a <> b ->
  let ab := MakeCurrent a va (MakeCurrent b vb f Return) Return in
  let ba := MakeCurrent b vb (MakeCurrent a va f Return) Return in
  fst (run i ab w) = fst (run i ba w)
  /\ user (snd (run i ab w)) = user (snd (run i ba w))
  /\ forall j t, stack_at (snd (run i ab w)) j t = stack_at (snd (run i ba w)) j t.
Proof.
  intros Hab ab ba.
  pose proof (run_scoped i ab w) as H1. pose proof (run_scoped i ba w) as H2.
  assert (E : scoped ab (fun t => stack_at w i t) (user w)
              = scoped ba (fun t => stack_at w i t) (user w)).
  { unfold ab, ba. simpl.
    now rewrite (scoped_ext f (install a va (install b vb (fun t => stack_at w i t)))
                   (install b vb (install a va (fun t => stack_at w i t)))
                   (user w)
                   (install_swap a b va vb (fun t => stack_at w i t) Hab)). }
  rewrite E, H2 in H1. inversion H1 as [[Ho Hu]].
  repeat split; auto.
  intros j t.
  destruct (run_restores i ab w) as [_ ->].
  now destruct (run_restores i ba w) as [_ ->].
Qed.


(** ** Lazy construction *)

Section Construction.
Context {U : Type} (i : tid).

Lemma on_stack_cout {A} (t : ty) (op : list (El t) -> option (A * list (El t)))
    (w : world U) :
  cout (snd (on_stack i t op w)) = (cout w ++ first_use w i t)%list.
Proof.
  unfold on_stack, getCurrenton, construct, first_use, creation_line.
  destruct (tls w i t) as [c|]; simpl; destruct (op _) as [[a s']|]; simpl;
    now rewrite ?app_nil_r.
Qed.

Lemma on_stack_constructed {A} (t : ty)
    (op : list (El t) -> option (A * list (El t))) (w : world U) :
  constructed (snd (on_stack i t op w)) i t.
Proof.
  unfold constructed, on_stack, getCurrenton, construct.
  destruct (tls w i t) as [c|] eqn:E; simpl; destruct (op _) as [[a s']|]; simpl;
    rewrite ?store_same, ?E; discriminate.
Qed.

Lemma on_stack_keeps {A} (t : ty) (op : list (El t) -> option (A * list (El t)))
    (w : world U) (j : tid) (t' : ty) :
  constructed w j t' -> constructed (snd (on_stack i t op w)) j t'.
Proof.
  intros H.
  destruct (Nat.eq_dec j i) as [->|nj];
    [destruct (ty_eq_dec t' t) as [->|nt]|].
  - apply on_stack_constructed.
  - unfold constructed. now rewrite on_stack_frame by auto.
  - unfold constructed. now rewrite on_stack_frame by auto.
Qed.

Lemma first_use_constructed (w : world U) (t : ty) :
  constructed w i t -> first_use w i t = [].
Proof.
  unfold constructed, first_use. now destruct (tls w i t).
Qed.

Lemma get_cout (t : ty) (w : world U) :
  cout (snd (get i t w)) = (cout w ++ first_use w i t)%list.
Proof.
  unfold get, bind.
  pose proof (on_stack_cout t stack_empty w) as Hc.
  pose proof (on_stack_constructed t stack_empty w) as Hk.
  destruct (on_stack i t stack_empty w) as [[e| |] w1]; simpl in *; auto.
  destruct e; simpl; [exact Hc|].
  now rewrite on_stack_cout, (first_use_constructed w1 t Hk), app_nil_r.
Qed.

Lemma get_keeps (t : ty) (w : world U) (j : tid) (t' : ty) :
  constructed w j t' -> constructed (snd (get i t w)) j t'.
Proof.
  intros H. unfold get, bind.
  pose proof (on_stack_keeps t stack_empty w j t' H) as Hk.
  destruct (on_stack i t stack_empty w) as [[e| |] w1]; simpl in *; auto.
  destruct e; simpl; [exact Hk|]. now apply on_stack_keeps.
Qed.

(** A relation between the state before and the state after that every
    call on the instantiations in [Q] keeps, is kept by every client
    program on those instantiations. *)
Section Kept.
Variable Q : ty -> Prop.
Variable R : world U -> world U -> Prop.
Hypothesis R_refl : forall w, R w w.
Hypothesis R_trans : forall w1 w2 w3, R w1 w2 -> R w2 w3 -> R w1 w3.
Hypothesis R_call :
  forall t A (op : list (El t) -> option (A * list (El t))) w,
    Q t -> R w (snd (on_stack i t op w)).
Hypothesis R_user : forall (g : U -> U) w, R w (set_user (g (user w)) w).

Lemma get_kept (t : ty) (w : world U) : Q t -> R w (snd (get i t w)).
Proof.
  intros Qt. unfold get, bind.
  pose proof (R_call t bool stack_empty w Qt) as H1.
  destruct (on_stack i t stack_empty w) as [[e| |] w1]; simpl in *; auto.
  destruct e; simpl; [exact H1|].
  eapply R_trans; [exact H1|]. now apply R_call.
Qed.

Lemma makeCurrent_kept (t : ty) (v : El t) (f : M U unit) (w : world U) :
  Q t -> (forall w0, R w0 (snd (f w0))) -> R w (snd (makeCurrent i t v f w)).
Proof.
  intros Qt Hf. rewrite makeCurrent_unfold.
  pose proof (R_call t unit (stack_push v) w Qt) as H1.
  pose proof (Hf (snd (on_stack i t (stack_push v) w))) as H2.
  destruct (f _) as [[[]|e|] w2]; simpl in *.
  - eapply R_trans; [exact H1|]. eapply R_trans; [exact H2|]. now apply R_call.
  - pose proof (R_call t unit stack_pop w2 Qt) as H3.
    destruct (on_stack i t stack_pop w2) as [[[]|e'|] w3]; simpl in *;
      (eapply R_trans; [exact H1|]; eapply R_trans; [exact H2|exact H3]).
  - eapply R_trans; [exact H1|exact H2].
Qed.

Lemma run_kept (p : prog U) :
  within Q p -> forall w, R w (snd (run i p w)).
Proof.
  induction p as [ | e | t k IH | t v f IHf k IHk | body IHb handler IHh k IHk
                 | g k IHk | k IH | child _ k IHk ]; simpl; intros Hp w; auto.
  - destruct Hp as [Qt Hk]. unfold bind.
    pose proof (get_kept t w Qt) as H1.
    destruct (get i t w) as [[x|e|] w1]; simpl in *; auto.
    eapply R_trans; [exact H1|]. now apply IH.
  - destruct Hp as (Qt & Hf & Hk). unfold bind.
    pose proof (makeCurrent_kept t v (run i f) w Qt (IHf Hf)) as H1.
    destruct (makeCurrent i t v (run i f) w) as [[[]|e|] w1]; simpl in *; auto.
    eapply R_trans; [exact H1|]. now apply IHk.
  - destruct Hp as (Hb & Hh & Hk). unfold bind, try_catch.
    pose proof (IHb Hb w) as H1.
    destruct (run i body w) as [[[]|e|] w1]; simpl in *; auto.
    + eapply R_trans; [exact H1|]. now apply IHk.
    + pose proof (IHh e (Hh e) w1) as H2.
      destruct (run i (handler e) w1) as [[[]|e'|] w2]; simpl in *;
        try (eapply R_trans; [exact H1|exact H2]).
      eapply R_trans; [exact H1|]. eapply R_trans; [exact H2|]. now apply IHk.
  - unfold bind, modify. simpl.
    eapply R_trans; [apply R_user|]. now apply IHk.
  - destruct Hp as [_ Hk]. now apply IHk.
Qed.
End Kept.

Lemma run_quiet (Q : ty -> Prop) (p : prog U) (w : world U) :
  within Q p -> quiet i Q w (snd (run i p w)).
Proof.
  intros Hp. apply (run_kept Q (quiet i Q)); auto.
  - intros w0 H. auto.
  - intros w1 w2 w3 H12 H23 H1.
    destruct (H12 H1) as [Hc Hk]. destruct (H23 Hk) as [Hc' Hk'].
    split; [congruence|exact Hk'].
  - intros t A op w0 Qt H. split.
    + now rewrite on_stack_cout, (first_use_constructed w0 t (H t Qt)), app_nil_r.
    + intros t' Qt'. now apply on_stack_keeps, H.
  - intros g w0 H. split; [reflexivity|exact H].
Qed.

Lemma run_grown (p : prog U) (w : world U) : grown w (snd (run i p w)).
Proof.
  assert (Hall : within (fun _ => True) p).
  { induction p; simpl; auto. }
  apply (run_kept (fun _ => True) grown); auto.
  - intros w0. split; [auto|]. exists 0. simpl. now rewrite app_nil_r.
  - intros w1 w2 w3 [Hk [n Hn]] [Hk' [m Hm]]. split; [auto|].
    exists (n + m). now rewrite Hm, Hn, repeat_app, app_assoc.
  - intros t A op w0 _. split; [intros; now apply on_stack_keeps|].
    rewrite on_stack_cout. unfold first_use.
    destruct (tls w0 i t); [exists 0|exists 1]; reflexivity.
  - intros g w0. split; [auto|]. exists 0. simpl. now rewrite app_nil_r.
Qed.
End Construction.

(** X3.  The first use of [Currenton<t>] on a thread, by [get] or by
    [makeCurrent], constructs the thread's object and writes the creation
    line once; a use on a thread that has the object writes nothing.  For
    [makeCurrent] this counts the push, the action (any client program on
    [Currenton<t>]) and the pop together. *)
Theorem first_use_writes_once {U} (i : tid) (t : ty) (w : world U) :
  cout (snd (get i t w)) = (cout w ++ first_use w i t)%list
  /\ constructed (snd (get i t w)) i t
  /\ forall (v : El t) (p : prog U),
       within (eq t) p ->
       cout (snd (makeCurrent i t v (run i p) w)) = (cout w ++ first_use w i t)%list
       /\ constructed (snd (makeCurrent i t v (run i p) w)) i t.
Proof.
  split; [apply get_cout|]. split.
  - unfold get, bind.
    pose proof (on_stack_constructed i t stack_empty w) as Hk.
    destruct (on_stack i t stack_empty w) as [[e| |] w1]; simpl in *; auto.
    destruct e; simpl; [exact Hk|]. apply on_stack_constructed.
  - intros v p Hp.
    destruct (makeCurrent_spec i t v (run i p) w (run_restores i p))
      as (_ & _ & ->). simpl.
    destruct (run_quiet i (eq t) p (snd (on_stack i t (stack_push v) w)) Hp)
      as [Hc Hk].
    { intros t' <-. apply on_stack_constructed. }
    split; [|apply on_stack_constructed].
    rewrite on_stack_cout, (first_use_constructed i _ t (Hk t eq_refl)), app_nil_r.
    now rewrite Hc, on_stack_cout.
Qed.

(** X4.  The constructor runs at most once per thread and instantiation:
    a client program whose calls are all on instantiations its thread has
    constructed writes nothing to [std::cout], however it nests and however
    it ends, and leaves them constructed. *)
Theorem constructed_once {U} (i : tid) (Q : ty -> Prop) (p : prog U)
    (w : world U) :
  within Q p ->
  (forall t, Q t -> constructed w i t) ->
  cout (snd (run i p w)) = cout w
  /\ forall t, Q t -> constructed (snd (run i p w)) i t.
Proof.
  intros Hp Hw. now apply (run_quiet i Q p w Hp).
Qed.

(** X5.  No call takes a [Currenton] away: what any thread has constructed
    before a client program runs is constructed after it, and all the
    program's calls add to [std::cout] are creation lines. *)
Theorem storage_only_grows {U} (i : tid) (p : prog U) (w : world U) :
  (forall j t, constructed w j t -> constructed (snd (run i p w)) j t)
  /\ exists n,
       cout (snd (run i p w)) = (cout w ++ repeat creation_line n)%list.
Proof.
  exact (run_grown i p w).
Qed.

(** ** Calls in progress: the stack during an action *)

Section Above.
Context {U : Type} (i : tid) (base : env).

Lemma above_ext (c : config U) (stk stk' : env) :
  (forall t, stk' t = stk t) -> above base c stk -> above base c stk'.
Proof.
  intros E. destruct c as [p K|o]; simpl.
  - intros H t. rewrite E. apply H.
  - intros [Ho H]. split; [exact Ho|]. intros t. rewrite E. apply H.
Qed.

Lemma pending_pop_same (t : ty) (k : prog U) (K : list (frame U)) :
  pending t (FPop t k :: K) = S (pending t K).
Proof.
  simpl. destruct (ty_eq_dec t t); [reflexivity|contradiction].
Qed.

Lemma pending_pop_other (t t' : ty) (k : prog U) (K : list (frame U)) :
  t' <> t -> pending t' (FPop t k :: K) = pending t' K.
Proof.
  intros H. simpl. destruct (ty_eq_dec t t'); [congruence|reflexivity].
Qed.

(** The pop a frame owes finds its value. *)
Lemma pop_above (t : ty) (p k : prog U) (K : list (frame U)) (w : world U) :
  above base (Active p (FPop t k :: K)) (fun x => stack_at w i x) ->
  fst (on_stack i t stack_pop w) = Returned tt
  /\ forall p', above base (Active p' K)
                  (fun x => stack_at (snd (on_stack i t stack_pop w)) i x).
Proof.
  intros H.
  destruct (H t) as (pre & E & L). rewrite pending_pop_same in L.
  destruct pre as [|x pre]; [discriminate|]. simpl in E, L.
  destruct (pop_outcome i t w _ _ E) as [Ho Hs].
  split; [exact Ho|]. intros p' t'.
  destruct (ty_eq_dec t' t) as [->|n].
  - exists pre. split; [exact Hs|lia].
  - destruct (H t') as (pre' & E' & L'). rewrite pending_pop_other in L' by exact n.
    exists pre'. split; [|exact L'].
    now rewrite on_stack_stack_other by auto.
Qed.

Lemma push_above (t : ty) (v : El t) (p p' k : prog U) (K : list (frame U))
    (w : world U) :
  above base (Active p K) (fun x => stack_at w i x) ->
  above base (Active p' (FPop t k :: K))
        (fun x => stack_at (snd (on_stack i t (stack_push v) w)) i x).
Proof.
  intros H t'.
  destruct (H t') as (pre & E & L).
  destruct (ty_eq_dec t' t) as [->|n].
  - exists (v :: pre). rewrite push_stack, E, pending_pop_same. simpl. auto.
  - exists pre. rewrite pending_pop_other by exact n.
    now rewrite on_stack_stack_other by auto.
Qed.

(** A step keeps a thread above its base. *)
Lemma step_thread_above (c : config U) (w : world U) :
  above base c (fun t => stack_at w i t) ->
  above base (fst (fst (step_thread i c w)))
        (fun t => stack_at (snd (fst (step_thread i c w))) i t).
Proof.
  intros H.
  destruct c as [p K|o]; [|exact H].
  destruct p as [ | e | t k | t v f k | body handler k | g k | k | child k ]; simpl.
  - destruct K as [|[t k|h k|k] K']; simpl; try exact H.
    + split; [discriminate|]. intros t.
      destruct (H t) as (pre & E & L). now destruct pre.
    + destruct (pop_above t Return k K' w H) as [Ho Ha].
      destruct (on_stack i t stack_pop w) as [o w1]; simpl in Ho, Ha |- *.
      subst o. exact (Ha k).
  - destruct K as [|[t k|h k|k] K']; simpl; try exact H.
    + split; [discriminate|]. intros t.
      destruct (H t) as (pre & E & L). now destruct pre.
    + destruct (pop_above t (Throw e) k K' w H) as [Ho Ha].
      destruct (on_stack i t stack_pop w) as [o w1]; simpl in Ho, Ha |- *.
      subst o. exact (Ha (Throw e)).
  - pose proof (get_outcome i t w) as Ho. pose proof (get_stack i t w) as Hs.
    destruct (get i t w) as [o w1]; simpl in Ho, Hs |- *.
    destruct (stack_at w i t) as [|x s] eqn:E; subst o; simpl;
      intros t'; rewrite Hs; apply H.
  - pose proof (push_outcome i t v w) as Ho.
    pose proof (push_above t v (MakeCurrent t v f k) f k K w H) as Ha.
    destruct (on_stack i t (stack_push v) w) as [o w1]; simpl in Ho, Ha |- *.
    subst o. exact Ha.
  - exact H.
  - exact H.
  - exact H.
  - exact H.
Qed.

Lemma steps_above (n : nat) :
  forall (c : config U) (w : world U),
    above base c (fun t => stack_at w i t) ->
    above base (fst (steps i n c w)) (fun t => stack_at (snd (steps i n c w)) i t).
Proof.
  induction n as [|n IH]; intros c w H; simpl; [exact H|].
  pose proof (step_thread_above c w H) as H1.
  destruct (step_thread i c w) as [[c1 w1] s1]. now apply IH.
Qed.
End Above.

Lemma steps_suffix {U} (i : tid) (p : prog U) (w : world U) (n : nat) :
  above (fun t => stack_at w i t) (fst (steps i n (Active p []) w))
        (fun t => stack_at (snd (steps i n (Active p []) w)) i t).
Proof.
  apply steps_above. intros t. now exists [].
Qed.

(** X6.  While a client program runs, what was installed before stays in
    place.  After any number of steps: while the thread is active, each of
    its stacks is the stack the program started on with exactly one value
    on top for every [makeCurrent] call in progress; when it has halted,
    every stack is the stack the program started on; and it never halts in
    undefined behaviour. *)
Theorem values_stay_underneath {U} (i : tid) (p : prog U) (w : world U)
    (n : nat) :
  fst (steps i n (Active p []) w) <> Halted Undefined
  /\ (forall q K,
        fst (steps i n (Active p []) w) = Active q K ->
        forall t, exists pre,
          stack_at (snd (steps i n (Active p []) w)) i t
          = (pre ++ stack_at w i t)%list
          /\ List.length pre = pending t K)
  /\ (forall o,
        fst (steps i n (Active p []) w) = Halted o ->
        forall t, stack_at (snd (steps i n (Active p []) w)) i t = stack_at w i t).
Proof.
  pose proof (steps_suffix i p w n) as H.
  destruct (fst (steps i n (Active p []) w)) as [q K|o]; simpl in H.
  - split; [discriminate|]. split; [|discriminate].
    intros q' K' E t. inversion E; subst. apply H.
  - destruct H as [Ho Hs]. split; [congruence|]. split; [discriminate|].
    intros o' _ t. apply Hs.
Qed.

(** X7.  If a value of [t] is current when a client program starts, one is
    current at every step of it: [get] returns a value there and does not
    throw. *)
Theorem get_succeeds_during {U} (i : tid) (t : ty) (p : prog U) (w : world U)
    (n : nat) :
  stack_at w i t <> [] ->
  exists x, fst (get i t (snd (steps i n (Active p []) w))) = Returned x.
Proof.
  intros Hne. rewrite get_outcome.
  pose proof (steps_suffix i p w n) as H.
  assert (E : exists pre, stack_at (snd (steps i n (Active p []) w)) i t
                          = (pre ++ stack_at w i t)%list).
  { destruct (fst (steps i n (Active p []) w)) as [q K|o]; simpl in H.
    - destruct (H t) as (pre & E & _). eauto.
    - exists []. apply H. }
  destruct E as [pre ->].
  destruct (stack_at w i t) as [|y s]; [contradiction|].
  destruct pre as [|x pre]; simpl; eauto.
Qed.

(** ** Every thread of a process keeps the discipline *)

Section PoolInvariant.
Context {U : Type}.

Lemma boot_ok (ps : list (prog U * U)) : pool_ok (boot ps).
Proof.
  split; [apply boot_fresh|].
  intros i c u H. apply nth_error_In in H. simpl in H.
  apply in_map_iff in H. destruct H as ([q u'] & E & _).
  inversion E; subst. intros t. now exists [].
Qed.

Lemma step_pool_ok (j : tid) (P : pool U) : pool_ok P -> pool_ok (step_pool j P).
Proof.
  intros [Hf Ha]. split.
  { intros k t Hk. apply step_pool_fresh; [exact Hf|].
    pose proof (step_pool_length j P). lia. }
  unfold step_pool.
  destruct (nth_error (threads P) j) as [[c u]|] eqn:E; [|exact Ha].
  assert (Hj : j < List.length (threads P)) by (apply nth_error_Some; congruence).
  pose proof (step_thread_above j no_values c
                {| tls := pool_tls P; cout := pool_cout P; user := u |}
                (Ha j c u E)) as Hown.
  pose proof (fun k t => step_thread_frame j k t c
                {| tls := pool_tls P; cout := pool_cout P; user := u |}) as Hframe.
  destruct (step_thread j c _) as [[c' w'] started]; simpl in Hown, Hframe |- *.
  intros i ci ui Hi.
  destruct (Nat.lt_ge_cases i (List.length (threads P))) as [Hlt|Hge].
  - rewrite nth_error_app1 in Hi by (rewrite length_replace_nth; exact Hlt).
    destruct (Nat.eq_dec i j) as [->|n].
    + rewrite nth_error_replace_nth_same in Hi by exact Hj.
      inversion Hi; subst. exact Hown.
    + rewrite nth_error_replace_nth_other in Hi by exact n.
      apply (above_ext no_values ci (fun t => pool_stack P i t)); [|now apply (Ha i ci ui)].
      intros t. unfold pool_stack. simpl. now rewrite Hframe.
  - rewrite nth_error_app2 in Hi by (rewrite length_replace_nth; exact Hge).
    apply nth_error_In, in_map_iff in Hi. destruct Hi as (q & E' & _).
    inversion E'; subst. intros t. exists []. split; [|reflexivity].
    unfold pool_stack. simpl. rewrite Hframe by lia. now rewrite (Hf i t Hge).
Qed.

Lemma schedule_ok (turns : list tid) (P : pool U) :
  pool_ok P -> pool_ok (schedule turns P).
Proof.
  revert P. induction turns as [|j turns IH]; intros P HP; simpl; [exact HP|].
  now apply IH, step_pool_ok.
Qed.
End PoolInvariant.

(** ** What a thread computes, under every interleaving *)

Section Results.
Context {U : Type} (i : tid).

Lemma steps_halted (k : nat) (o : outcome unit) (w : world U) :
  steps i k (Halted o) w = (Halted o, w).
Proof. induction k as [|k IH]; simpl; auto. Qed.

(** From a thread's start to its halt: the steps of [run], and one more. *)
Lemma steps_to_halt (p : prog U) (w : world U) :
  exists n, forall k,
    n <= k -> steps i k (Active p []) w = (Halted (fst (run i p w)), snd (run i p w)).
Proof.
  destruct (threads_execute_run i p [] w) as [n Hn].
  destruct (run_restores i p w) as [Hd _].
  exists (n + 1). intros k Hk.
  replace k with (n + (1 + (k - (n + 1)))) by lia.
  eapply steps_trans; [exact Hn|].
  eapply steps_trans; [|apply steps_halted].
  destruct (fst (run i p w)) as [[]|e|]; [reflexivity|reflexivity|contradiction].
Qed.

(** The turns of a thread alone are its steps. *)
Lemma alone_steps (k : nat) :
  forall (P : pool U) (c : config U) (u : U),
    nth_error (threads P) i = Some (c, u) ->
    nth_error (threads (schedule (repeat i k) P)) i
    = Some (fst (steps i k c {| tls := pool_tls P; cout := pool_cout P; user := u |}),
            user (snd (steps i k c
                         {| tls := pool_tls P; cout := pool_cout P; user := u |}))).
Proof.
  induction k as [|k IH]; intros P c u E; simpl; [exact E|].
  assert (Hi : i < List.length (threads P)) by (apply nth_error_Some; congruence).
  unfold step_pool at 1. rewrite E.
  destruct (step_thread i c _) as [[c' w'] started].
  rewrite (IH _ c' (user w')).
  - simpl. now destruct w'.
  - simpl. rewrite nth_error_app1 by (rewrite length_replace_nth; exact Hi).
    now apply nth_error_replace_nth_same.
Qed.
End Results.

(** X13.  What a thread computes does not depend on the interleaving: a
    thread of a process that has had enough turns has halted with the
    outcome, and in the state, of its program run on its own from empty
    storage, whatever the other threads did in between. *)
Theorem thread_result_any_interleaving {U} (ps : list (prog U * U)) (i : tid)
    (p : prog U) (u : U) :
  nth_error ps i = Some (p, u) ->
  let alone := run i p {| tls := no_storage; cout := []; user := u |} in
  exists n, forall turns,
    n <= List.length (filter (Nat.eqb i) turns) ->
    nth_error (threads (schedule turns (boot ps))) i
    = Some (Halted (fst alone), user (snd alone)).
Proof.
  intros E alone.
  assert (Eb : nth_error (threads (boot ps)) i = Some (Active p [], u)).
  { simpl. now rewrite nth_error_map, E. }
  assert (Hi : i < List.length (threads (boot ps)))
    by (apply nth_error_Some; congruence).
  destruct (steps_to_halt i p {| tls := no_storage; cout := []; user := u |})
    as [n Hn].
  exists n. intros turns Hk.
  destruct (schedule_filter i turns (boot ps) (boot ps) Hi Hi) as [-> _];
    [split; reflexivity|].
  rewrite filter_turns_repeat, (alone_steps i _ (boot ps) _ _ Eb).
  simpl pool_tls. simpl pool_cout. now rewrite (Hn _ Hk).
Qed.

(** X8.  Under every interleaving, every thread of a process keeps the
    discipline: no thread halts in undefined behaviour (no pop ever finds an
    empty stack); an active thread has on each stack exactly one value for
    every [makeCurrent] call it is inside of; and a thread that has halted,
    returning or with an uncaught exception, has left all its stacks
    empty. *)
Theorem threads_keep_discipline {U} (ps : list (prog U * U)) (turns : list tid)
    (i : tid) (c : config U) (u : U) :
  let P := schedule turns (boot ps) in
  nth_error (threads P) i = Some (c, u) ->
  c <> Halted Undefined
  /\ (forall o, c = Halted o -> forall t, pool_stack P i t = [])
  /\ (forall p K, c = Active p K ->
                  forall t, List.length (pool_stack P i t) = pending t K).
Proof.
  intros P Hi.
  destruct (schedule_ok turns (boot ps) (boot_ok ps)) as [_ Ha].
  pose proof (Ha i c u Hi) as H. fold P in H.
  destruct c as [p K|o]; simpl in H.
  - split; [discriminate|]. split; [discriminate|].
    intros p' K' E t. inversion E; subst.
    destruct (H t) as (pre & -> & L). now rewrite length_app, L, Nat.add_0_r.
  - destruct H as [Ho Hs]. split; [congruence|]. split.
    + intros o' _ t. apply Hs.
    + discriminate.
Qed.


(** ** Actions that keep and use references *)

Section References.
Context {U : Type} (i : tid).

Lemma assign_at_length {T} (r : ref) (x : T) (s : list T) :
  forall s', assign_at r x s = Some s' -> List.length s' = List.length s.
Proof.
  induction s as [|y s IH]; simpl; intros s' H; [discriminate|].
  destruct (Nat.eqb r (List.length s)).
  - now inversion H.
  - destruct (assign_at r x s) as [s''|]; [|discriminate].
    inversion H; subst. simpl. now rewrite (IH s'' eq_refl).
Qed.

Lemma on_stack_same_length {A} (t : ty)
    (op : list (El t) -> option (A * list (El t))) (w : world U) :
  (forall s a s', op s = Some (a, s') -> List.length s' = List.length s) ->
  forall j t', List.length (stack_at (snd (on_stack i t op w)) j t')
               = List.length (stack_at w j t').
Proof.
  intros Hop j t'.
  destruct (Nat.eq_dec j i) as [->|nj];
    [destruct (ty_eq_dec t' t) as [->|nt]|];
    try (now rewrite on_stack_stack_other by auto).
  destruct (op (stack_at w i t)) as [[a s']|] eqn:E.
  - destruct (on_stack_returned i t op w _ _ E) as [_ ->]. eapply Hop, E.
  - now destruct (on_stack_undefined i t op w E) as [_ ->].
Qed.

Lemma on_stack_same_stack {A} (t : ty)
    (op : list (El t) -> option (A * list (El t))) (w : world U) :
  (forall s a s', op s = Some (a, s') -> s' = s) ->
  forall j t', stack_at (snd (on_stack i t op w)) j t' = stack_at w j t'.
Proof.
  intros Hop j t'.
  destruct (Nat.eq_dec j i) as [->|nj];
    [destruct (ty_eq_dec t' t) as [->|nt]|];
    try (now rewrite on_stack_stack_other by auto).
  destruct (op (stack_at w i t)) as [[a s']|] eqn:E.
  - destruct (on_stack_returned i t op w _ _ E) as [_ ->]. eapply Hop, E.
  - now destruct (on_stack_undefined i t op w E) as [_ ->].
Qed.

Lemma get_ref_stack (t : ty) (w : world U) (j : tid) (t' : ty) :
  stack_at (snd (get_ref i t w)) j t' = stack_at w j t'.
Proof.
  unfold get_ref, bind.
  pose proof (on_stack_same_stack t stack_empty w) as H1.
  destruct (on_stack i t stack_empty w) as [[e| |] w1]; simpl in *;
    try (apply H1; intros s a s' E; now inversion E).
  destruct e; simpl; [apply H1; intros s a s' E; now inversion E|].
  rewrite on_stack_same_stack.
  - apply H1. intros s a s' E. now inversion E.
  - intros [|y s] a s' E; simpl in E; now inversion E.
Qed.

Lemma keeps_weaken {A} (P P' : Prop) (f : M U A) :
  (P' -> P) -> keeps P f -> keeps P' f.
Proof.
  intros HP Hf w Hd. destruct (Hf w Hd) as [Hl He]. split; auto.
Qed.

(** After a call that leaves the stacks as they are. *)
Lemma keeps_after {A} (P : Prop) (m : M U A) (k : A -> M U unit) :
  (forall w j t, stack_at (snd (m w)) j t = stack_at w j t) ->
  (forall a, keeps P (k a)) -> keeps P (bind m k).
Proof.
  intros Hm Hk w. unfold bind. specialize (Hm w).
  destruct (m w) as [[a|e|] w1]; simpl in *; intros Hd.
  - destruct (Hk a w1 Hd) as [Hl He]. split.
    + intros j t. now rewrite Hl, Hm.
    + intros HP j t. now rewrite He, Hm.
  - split; intros; now rewrite Hm.
  - contradiction.
Qed.

Lemma keeps_then (P : Prop) (m k : M U unit) :
  keeps P m -> keeps P k -> keeps P (bind m (fun _ => k)).
Proof.
  intros Hm Hk w. unfold bind. specialize (Hm w).
  destruct (m w) as [[[]|e|] w1]; simpl in *; intros Hd.
  - destruct Hm as [Hl He]; [discriminate|].
    destruct (Hk w1 Hd) as [Hl' He']. split.
    + intros j t. now rewrite Hl', Hl.
    + intros HP j t. now rewrite He', He.
  - apply Hm. discriminate.
  - contradiction.
Qed.

Lemma makeCurrent_keeps (P : Prop) (t : ty) (v : El t) (f : M U unit) :
  keeps P f -> keeps P (makeCurrent i t v f).
Proof.
  intros Hf w. rewrite makeCurrent_unfold.
  pose proof (push_stack i t v w) as Hpush.
  pose proof (fun j t' => on_stack_stack_other i t (stack_push v) w j t') as Hother.
  set (w1 := snd (on_stack i t (stack_push v) w)) in *.
  specialize (Hf w1).
  destruct (f w1) as [o w2]; simpl in Hf.
  assert (Hgo : o <> Undefined ->
                fst (on_stack i t stack_pop w2) = Returned tt
                /\ (forall j t', List.length (stack_at (snd (on_stack i t stack_pop w2)) j t')
                                 = List.length (stack_at w j t'))
                /\ (P -> forall j t', stack_at (snd (on_stack i t stack_pop w2)) j t'
                                      = stack_at w j t')).
  { intros Ho. destruct (Hf Ho) as [Hl He].
    pose proof (Hl i t) as Hlt. rewrite Hpush in Hlt.
    destruct (stack_at w2 i t) as [|x s2] eqn:E2; [discriminate|].
    simpl in Hlt.
    destruct (pop_outcome i t w2 _ _ E2) as [Hr Hs].
    split; [exact Hr|]. split.
    - intros j t'.
      destruct (Nat.eq_dec j i) as [->|nj];
        [destruct (ty_eq_dec t' t) as [->|nt]|].
      + rewrite Hs. lia.
      + rewrite on_stack_stack_other, Hl by auto. now rewrite Hother by auto.
      + rewrite on_stack_stack_other, Hl by auto. now rewrite Hother by auto.
    - intros HP j t'.
      destruct (Nat.eq_dec j i) as [->|nj];
        [destruct (ty_eq_dec t' t) as [->|nt]|].
      + rewrite Hs. pose proof (He HP i t) as Het.
        rewrite E2, Hpush in Het. now inversion Het.
      + rewrite on_stack_stack_other, (He HP) by auto. now apply Hother; auto.
      + rewrite on_stack_stack_other, (He HP) by auto. now apply Hother; auto. }
  destruct o as [[]|e|]; simpl; intros Hd.
  - destruct Hgo as (_ & Hl & He); [discriminate|]. now split.
  - destruct Hgo as (Hr & Hl & He); [discriminate|].
    destruct (on_stack i t stack_pop w2) as [o3 w3]; simpl in *; subst o3.
    now split.
  - contradiction.
Qed.

Lemma rrun_keeps (p : rprog U) : keeps (reads_only p) (rrun i p).
Proof.
  induction p as [ | e | t k IH | t k IH | t r k IH | t r x k IHk
                 | t v f IHf k IHk | body IHb handler IHh k IHk
                 | g k IHk | k IH | child _ k IHk ]; simpl.
  - intros w _. now split.
  - intros w _. now split.
  - apply keeps_after; [apply get_stack|].
    intros x. apply (keeps_weaken (reads_only (k x))); auto.
  - apply keeps_after; [apply get_ref_stack|].
    intros r. apply (keeps_weaken (reads_only (k r))); auto.
  - apply keeps_after.
    + intros w. apply on_stack_same_stack. intros s a s' E.
      unfold stack_read in E. destruct (read_at r s); now inversion E.
    + intros x. apply (keeps_weaken (reads_only (k x))); auto.
  - apply keeps_then; [|apply (keeps_weaken (reads_only k)); tauto].
    intros w _. split; [|contradiction].
    apply on_stack_same_length. intros s a s' E.
    unfold stack_assign in E.
    destruct (assign_at r x s) as [s''|] eqn:Ea; inversion E; subst.
    eapply assign_at_length, Ea.
  - apply keeps_then.
    + apply makeCurrent_keeps, (keeps_weaken (reads_only f)); tauto.
    + apply (keeps_weaken (reads_only k)); tauto.
  - apply keeps_then; [|apply (keeps_weaken (reads_only k)); tauto].
    intros w. unfold try_catch.
    pose proof (IHb w) as Hb.
    destruct (rrun i body w) as [[[]|e|] w1]; simpl in *; intros Hd.
    + destruct Hb as [Hl He]; [discriminate|]. split; [exact Hl|].
      intros (HP & _ & _). now apply He.
    + destruct Hb as [Hl He]; [discriminate|].
      destruct (IHh e w1 Hd) as [Hl' He']. split.
      * intros j t. now rewrite Hl', Hl.
      * intros (HP & HQ & _) j t. now rewrite (He' (HQ e)), (He HP).
    + contradiction.
  - apply keeps_after; [reflexivity|]. intros _. exact IHk.
  - intros w Hd. destruct (IH (user w) w Hd) as [Hl He]. split; auto.
  - apply (keeps_weaken (reads_only k)); tauto.
Qed.

(** A program that keeps no reference runs as before, and only reads. *)
Lemma rrun_keeping_none (p : prog U) :
  forall w, rrun i (keeping_none p) w = run i p w.
Proof.
  induction p as [ | e | t k IH | t v f IHf k IHk | body IHb handler IHh k IHk
                 | g k IHk | k IH | child _ k IHk ]; simpl; intros w; auto.
  - unfold bind. destruct (get i t w) as [[x|e|] w1]; auto.
  - unfold bind. rewrite !makeCurrent_unfold, IHf.
    destruct (run i f _) as [[[]|e|] w2]; auto;
      destruct (on_stack i t stack_pop w2) as [[[]|e'|] w3]; auto.
  - unfold bind, try_catch. rewrite IHb.
    destruct (run i body w) as [[[]|e|] w1]; auto.
    rewrite IHh. destruct (run i (handler e) w1) as [[[]|e'|] w2]; auto.
  - unfold bind, modify. simpl. apply IHk.
Qed.

Lemma keeping_none_reads_only (p : prog U) : reads_only (keeping_none p).
Proof.
  induction p; simpl; auto.
Qed.
End References.

(** C3, as the code has it.  After [makeCurrent(v, action)] has completed,
    on return and on an exception alike: every stack holds the very
    elements it held before the call when the action is a client program
    that keeps no reference, or one that writes through none; and whatever
    the action did with the references [get] gave it or its caller, every
    stack has as many elements as before.  (An action that writes through
    a reference to an element beneath the pushed value leaves that element
    changed: [Scenarios.overwritten_beneath].) *)
Theorem makeCurrent_net_zero_growth {U} (i : tid) (t : ty) (v : El t)
    (a : rprog U) (w : world U) :
  (forall (p : prog U) j t',
      stack_at (snd (makeCurrent i t v (run i p) w)) j t' = stack_at w j t')
  /\ (fst (makeCurrent i t v (rrun i a) w) <> Undefined ->
      (forall j t',
          List.length (stack_at (snd (makeCurrent i t v (rrun i a) w)) j t')
          = List.length (stack_at w j t'))
      /\ (reads_only a ->
          forall j t',
            stack_at (snd (makeCurrent i t v (rrun i a) w)) j t'
            = stack_at w j t')).
Proof.
  split.
  - intros p j t'.
    now destruct (makeCurrent_restores i t v (run i p) (run_restores i p) w)
      as [_ ->].
  - intros Hd.
    exact (makeCurrent_keeps i (reads_only a) t v (rrun i a) (rrun_keeps i a) w Hd).
Qed.

End Properties.

(** * The source's program and the specification's scenarios *)

Module Scenarios.
Import Demo.
Local Open Scope Z_scope.

(** [main], first call: the recursion goes up to 20 and every level finds
    its own value again after the call. *)
Example main_incrementNicely :
  fst (main_nicely start) = Returned tt
  /\ user (snd (main_nicely start))
     = ["Before call: 20. After call: 20"; "Before call: 19. After call: 19";
        "Before call: 18. After call: 18"; "Before call: 17. After call: 17";
        "Before call: 16. After call: 16"; "Before call: 15. After call: 15";
        "Before call: 14. After call: 14"; "Before call: 13. After call: 13";
        "Before call: 12. After call: 12"; "Before call: 11. After call: 11";
        "Before call: 10. After call: 10"]%string
  /\ cout (snd (main_nicely start)) = ["Creating thread currenton."]%string
  /\ stack_at (snd (main_nicely start)) 0%nat Currenton_Integer = [].
Proof. vm_compute. repeat split. Qed.

(** [main], second call: the throw at 15 goes through every level, each
    of which finds its own value again. *)
Example main_incrementButFail :
  fst (main_fail start) = Thrown (runtime_error "Oh no.")
  /\ user (snd (main_fail start))
     = ["Before call: 14. After exception: 14";
        "Before call: 13. After exception: 13";
        "Before call: 12. After exception: 12";
        "Before call: 11. After exception: 11";
        "Before call: 10. After exception: 10"]%string
  /\ stack_at (snd (main_fail start)) 0%nat Currenton_Integer = [].
Proof. vm_compute. repeat split. Qed.

(** [main], last call: [incrementNicely] with nothing installed. *)
Example main_nothing_installed :
  fst (run 0%nat (incrementNicely 32) start)
  = Thrown (runtime_error "No current object").
Proof. vm_compute. reflexivity. Qed.

Example nested_failure_unwinds :
  let r := run 0%nat nested_failure nothing_yet in
  fst r = Thrown (thrown_object 7)
  /\ user (snd r) = [10; 11]
  /\ stack_at (snd r) 0%nat Currenton_Integer = []
  /\ fst (get 0%nat Currenton_Integer (snd r))
     = Thrown (runtime_error "No current object").
Proof. vm_compute. repeat split. Qed.


Lemma reader_alone (i : tid) (n : nat) :
  (i < 2)%nat ->
  notes_only (nth i [10; 99] 0)
             (nth_error (threads (schedule (repeat i n) two_threads)) i).
Proof.
  intros Hi.
  assert (Hcases : i = 0%nat \/ i = 1%nat) by lia.
  destruct Hcases as [-> | ->];
    do 5 (destruct n as [|n];
          [vm_compute; do 2 eexists; split; [reflexivity|];
           split; [auto|]; intros o Ho; inversion Ho; auto; discriminate|]);
    change (S (S (S (S (S n))))) with (5 + n)%nat;
    rewrite repeat_app, schedule_app.
  - erewrite schedule_halted; [|reflexivity].
    vm_compute. do 2 eexists. split; [reflexivity|].
    split; [auto|]. intros o Ho. inversion Ho. auto.
  - erewrite schedule_halted; [|reflexivity].
    vm_compute. do 2 eexists. split; [reflexivity|].
    split; [auto|]. intros o Ho. inversion Ho. auto.
Qed.

Example two_threads_read_their_own (turns : list tid) :
  notes_only 10 (nth_error (threads (schedule turns two_threads)) 0%nat)
  /\ notes_only 99 (nth_error (threads (schedule turns two_threads)) 1%nat).
Proof.
  split.
  - destruct (schedule_filter 0%nat turns two_threads two_threads) as [-> _];
      [vm_compute; lia|vm_compute; lia|split; reflexivity|].
    rewrite filter_turns_repeat. apply (reader_alone 0%nat). lia.
  - destruct (schedule_filter 1%nat turns two_threads two_threads) as [-> _];
      [vm_compute; lia|vm_compute; lia|split; reflexivity|].
    rewrite filter_turns_repeat. apply (reader_alone 1%nat). lia.
Qed.

(** [main]'s four threads, turn by turn and in a lopsided order: each goes
    up to 20 on its own stack and finds its own values again. *)
Example four_threads_complete :
  let done : config (list string) * list string :=
    (Halted (Returned tt),
     ["Before call: 20. After call: 20"; "Before call: 19. After call: 19";
      "Before call: 18. After call: 18"]%string) in
  threads (schedule (List.concat (repeat [0; 1; 2; 3]%nat 20)) four_threads)
  = [done; done; done; done]
  /\ threads (schedule (repeat 3 7 ++ repeat 1 20 ++ repeat 0 20 ++ repeat 2 20
                        ++ repeat 3 13)%list%nat four_threads)
     = [done; done; done; done].
Proof. vm_compute. split; reflexivity. Qed.

(** A thread started inside an action, while its parent has 10 installed,
    finds nothing installed. *)
Example child_starts_empty :
  let P := schedule [0; 0; 1; 1; 0; 0; 0]%nat (boot [(parent, [])]) in
  map fst (threads P)
  = [Halted (Returned tt); Halted (Thrown (runtime_error "No current object"))]
  /\ pool_cout P = ["Creating thread currenton."; "Creating thread currenton."]%string.
Proof. vm_compute. split; reflexivity. Qed.

(** *** [incrementNicely] and [incrementButFail] from any value *)

Lemma install_Integer (x : Integer) (r : env) :
  install Currenton_Integer x r Currenton_Integer = x :: r Currenton_Integer.
Proof. reflexivity. Qed.

Lemma nicely_scoped (n : nat) :
  forall (v : Z) (d : nat) (r : env) (u : list string) (s : list Integer),
    Z.to_nat (20 - v) = n -> (n < d)%nat ->
    r Currenton_Integer = {| getValue := v |} :: s ->
    scoped (incrementNicely d) r u = (Returned tt, (u ++ nicely_lines n v)%list).
Proof.
  induction n as [|n IH]; intros v d r u s Hn Hd Hr;
    (destruct d as [|d]; [lia|]); cbn [incrementNicely scoped]; rewrite Hr;
    cbn [getValue].
  - replace (v <? 20) with false by (symmetry; apply Z.ltb_ge; lia).
    cbn [scoped say]. rewrite Hr. reflexivity.
  - replace (v <? 20) with true by (symmetry; apply Z.ltb_lt; lia).
    cbn [scoped].
    rewrite (IH (v + 1) d (install (I:=demo) Currenton_Integer {| getValue := v + 1 |} r)
               u (r Currenton_Integer)) by (try lia; apply install_Integer).
    cbn [scoped say]. rewrite Hr. cbn [getValue nicely_lines].
    now rewrite app_assoc.
Qed.

Lemma fail_scoped (n : nat) :
  forall (v : Z) (d : nat) (r : env) (u : list string) (s : list Integer),
    v <= 15 -> Z.to_nat (15 - v) = n -> (n < d)%nat ->
    r Currenton_Integer = {| getValue := v |} :: s ->
    scoped (incrementButFail d) r u
    = (Thrown (runtime_error "Oh no."), (u ++ fail_lines n v)%list).
Proof.
  induction n as [|n IH]; intros v d r u s Hv Hn Hd Hr;
    (destruct d as [|d]; [lia|]); cbn [incrementButFail scoped]; rewrite Hr;
    cbn [getValue].
  - replace (v =? 15) with true by (symmetry; apply Z.eqb_eq; lia).
    cbn [scoped fail_lines]. now rewrite app_nil_r.
  - replace (v =? 15) with false by (symmetry; apply Z.eqb_neq; lia).
    replace (v <? 20) with true by (symmetry; apply Z.ltb_lt; lia).
    cbn [scoped].
    rewrite (IH (v + 1) d (install (I:=demo) Currenton_Integer {| getValue := v + 1 |} r)
               u (r Currenton_Integer)) by (try lia; apply install_Integer).
    cbn [scoped say]. rewrite Hr. cbn [getValue fail_lines scoped].
    now rewrite app_assoc.
Qed.

Lemma pass_scoped (n : nat) :
  forall (v : Z) (d : nat) (r : env) (u : list string) (s : list Integer),
    15 < v -> Z.to_nat (20 - v) = n -> (n < d)%nat ->
    r Currenton_Integer = {| getValue := v |} :: s ->
    scoped (incrementButFail d) r u = (Returned tt, u).
Proof.
  induction n as [|n IH]; intros v d r u s Hv Hn Hd Hr;
    (destruct d as [|d]; [lia|]); cbn [incrementButFail scoped]; rewrite Hr;
    cbn [getValue];
    replace (v =? 15) with false by (symmetry; apply Z.eqb_neq; lia).
  - replace (v <? 20) with false by (symmetry; apply Z.ltb_ge; lia).
    reflexivity.
  - replace (v <? 20) with true by (symmetry; apply Z.ltb_lt; lia).
    cbn [scoped].
    now rewrite (IH (v + 1) d (install (I:=demo) Currenton_Integer {| getValue := v + 1 |} r)
                   u (r Currenton_Integer)) by (try lia; apply install_Integer).
Qed.

(** X9.  [incrementNicely] called with the value [v] current goes up to 20
    one [makeCurrent] at a time and comes back: it returns, every level has
    found its own value again after the nested call (the lines, innermost
    level first, each with the same number twice), and the stack is what it
    was.  With [v] at 20 or more it is the single line of this level. *)
Theorem incrementNicely_counts_up (i : tid) (v : Z) (s : list Integer)
    (d : nat) (w : world (list string)) :
  stack_at w i Currenton_Integer = {| getValue := v |} :: s ->
  (Z.to_nat (20 - v) < d)%nat ->
  fst (run i (incrementNicely d) w) = Returned tt
  /\ user (snd (run i (incrementNicely d) w))
     = (user w ++ nicely_lines (Z.to_nat (20 - v)) v)%list
  /\ stack_at (snd (run i (incrementNicely d) w)) i Currenton_Integer
     = {| getValue := v |} :: s.
Proof.
  intros Hs Hd.
  pose proof (run_scoped i (incrementNicely d) w) as H.
  rewrite (nicely_scoped (Z.to_nat (20 - v)) v d (fun t => stack_at w i t)
             (user w) s eq_refl Hd Hs) in H.
  inversion H as [[Ho Hu]].
  repeat split; auto.
  destruct (run_restores i (incrementNicely d) w) as [_ ->]. exact Hs.
Qed.

(** X10.  [incrementButFail] called with a value [v] of at most 15 current
    throws [std::runtime_error("Oh no.")]: the throw at 15 passes every
    level, each of which finds its own value current in its handler (one
    line per level from 14 down to [v], none when [v] is 15), and the
    stack is what it was. *)
Theorem incrementButFail_throws (i : tid) (v : Z) (s : list Integer)
    (d : nat) (w : world (list string)) :
  stack_at w i Currenton_Integer = {| getValue := v |} :: s ->
  v <= 15 ->
  (Z.to_nat (15 - v) < d)%nat ->
  fst (run i (incrementButFail d) w) = Thrown (runtime_error "Oh no.")
  /\ user (snd (run i (incrementButFail d) w))
     = (user w ++ fail_lines (Z.to_nat (15 - v)) v)%list
  /\ stack_at (snd (run i (incrementButFail d) w)) i Currenton_Integer
     = {| getValue := v |} :: s.
Proof.
  intros Hs Hv Hd.
  pose proof (run_scoped i (incrementButFail d) w) as H.
  rewrite (fail_scoped (Z.to_nat (15 - v)) v d (fun t => stack_at w i t)
             (user w) s Hv eq_refl Hd Hs) in H.
  inversion H as [[Ho Hu]].
  repeat split; auto.
  destruct (run_restores i (incrementButFail d) w) as [_ ->]. exact Hs.
Qed.

(** X11.  [incrementButFail] called with a value above 15 current never
    meets 15: it goes up to 20, returns, writes nothing, and leaves the
    stack as it was. *)
Theorem incrementButFail_passes (i : tid) (v : Z) (s : list Integer)
    (d : nat) (w : world (list string)) :
  stack_at w i Currenton_Integer = {| getValue := v |} :: s ->
  15 < v ->
  (Z.to_nat (20 - v) < d)%nat ->
  fst (run i (incrementButFail d) w) = Returned tt
  /\ user (snd (run i (incrementButFail d) w)) = user w
  /\ stack_at (snd (run i (incrementButFail d) w)) i Currenton_Integer
     = {| getValue := v |} :: s.
Proof.
  intros Hs Hv Hd.
  pose proof (run_scoped i (incrementButFail d) w) as H.
  rewrite (pass_scoped (Z.to_nat (20 - v)) v d (fun t => stack_at w i t)
             (user w) s Hv eq_refl Hd Hs) in H.
  inversion H as [[Ho Hu]].
  repeat split; auto.
  destruct (run_restores i (incrementButFail d) w) as [_ ->]. exact Hs.
Qed.

(** X12.  Called with no [Integer] current, [incrementNicely] and
    [incrementButFail] throw [std::runtime_error("No current object")] at
    their first [get], before they write or install anything. *)
Theorem increment_needs_current (i : tid) (d : nat) (w : world (list string)) :
  stack_at w i Currenton_Integer = [] ->
  (0 < d)%nat ->
  (fst (run i (incrementNicely d) w) = Thrown (runtime_error "No current object")
   /\ user (snd (run i (incrementNicely d) w)) = user w
   /\ stack_at (snd (run i (incrementNicely d) w)) i Currenton_Integer = [])
  /\ (fst (run i (incrementButFail d) w) = Thrown (runtime_error "No current object")
      /\ user (snd (run i (incrementButFail d) w)) = user w
      /\ stack_at (snd (run i (incrementButFail d) w)) i Currenton_Integer = []).
Proof.
  intros Hs Hd. destruct d as [|d]; [lia|].
  pose proof (run_scoped i (incrementNicely (S d)) w) as H1.
  pose proof (run_scoped i (incrementButFail (S d)) w) as H2.
  cbn [incrementNicely incrementButFail scoped] in H1, H2.
  rewrite Hs in H1, H2.
  inversion H1 as [[Ho1 Hu1]]. inversion H2 as [[Ho2 Hu2]].
  destruct (run_restores i (incrementNicely (S d)) w) as [_ E1].
  destruct (run_restores i (incrementButFail (S d)) w) as [_ E2].
  rewrite E1, E2. repeat split; auto.
Qed.

(** C3 as stated fails.  The caller has 5 current and keeps the reference
    [get] returns; the action of [makeCurrent({6}, ...)] writes 77 through
    it.  The call returns, and the stack that held 5 holds 77. *)
Lemma overwritten_beneath :
  fst (get_ref 0%nat Currenton_Integer five_current) = Returned kept_reference
  /\ stack_at five_current 0%nat Currenton_Integer = [{| getValue := 5 |}]
  /\ fst (makeCurrent 0%nat Currenton_Integer {| getValue := 6 |}
            (rrun 0%nat overwrite) five_current) = Returned tt
  /\ stack_at (snd (makeCurrent 0%nat Currenton_Integer {| getValue := 6 |}
                      (rrun 0%nat overwrite) five_current))
              0%nat Currenton_Integer
     = [{| getValue := 77 |}]
  /\ stack_at (snd (makeCurrent 0%nat Currenton_Integer {| getValue := 6 |}
                      (rrun 0%nat overwrite) five_current))
              0%nat Currenton_Integer
     <> stack_at five_current 0%nat Currenton_Integer.
Proof.
  vm_compute. repeat split. discriminate.
Qed.

(** A write through a reference got inside the action goes to the value
    the call installed, and is gone with it. *)
Example overwritten_own_value :
  let r := makeCurrent 0%nat Currenton_Integer {| getValue := 6 |}
             (rrun 0%nat overwrite_own) five_current in
  fst r = Returned tt
  /\ user (snd r) = [77]
  /\ stack_at (snd r) 0%nat Currenton_Integer = [{| getValue := 5 |}].
Proof. vm_compute. repeat split. Qed.

(** *** The claims at work *)

Lemma makeCurrent_net_zero_growth_witness :
  fst (makeCurrent 0%nat Currenton_Integer {| getValue := 6 |}
         (rrun 0%nat overwrite) five_current) <> Undefined
  /\ List.length (stack_at (snd (makeCurrent 0%nat Currenton_Integer
                                   {| getValue := 6 |}
                                   (rrun 0%nat overwrite) five_current))
                           0%nat Currenton_Integer)
     = List.length (stack_at five_current 0%nat Currenton_Integer).
Proof.
  assert (H : fst (makeCurrent 0%nat Currenton_Integer {| getValue := 6 |}
                     (rrun 0%nat overwrite) five_current) <> Undefined)
    by (vm_compute; discriminate).
  split; [exact H|].
  exact (proj1 (proj2 (makeCurrent_net_zero_growth 0%nat Currenton_Integer
                         {| getValue := 6 |} overwrite five_current) H)
               0%nat Currenton_Integer).
Defined.


Lemma makeCurrent_rethrows_witness :
  let w1 := snd (on_stack 0%nat Currenton_Integer (stack_push ten) start) in
  fst (run 0%nat (incrementButFail 32) w1) = Thrown (runtime_error "Oh no.")
  /\ StdStack.top (stack_at (snd (run 0%nat (incrementButFail 32) w1))
                            0%nat Currenton_Integer) = Some ten
  /\ fst (makeCurrent 0%nat Currenton_Integer ten
            (run 0%nat (incrementButFail 32)) start)
     = Thrown (runtime_error "Oh no.")
  /\ stack_at (snd (makeCurrent 0%nat Currenton_Integer ten
                      (run 0%nat (incrementButFail 32)) start))
              0%nat Currenton_Integer
     = stack_at start 0%nat Currenton_Integer.
Proof.
  intros w1.
  assert (H : fst (run 0%nat (incrementButFail 32) w1)
              = Thrown (runtime_error "Oh no.")) by (vm_compute; reflexivity).
  split; [exact H|].
  exact (makeCurrent_rethrows 0%nat Currenton_Integer ten
           (incrementButFail 32) start _ H).
Defined.

Lemma get_without_current_witness :
  stack_at start 3%nat Currenton_Integer = []
  /\ fst (get 3%nat Currenton_Integer start)
     = Thrown (runtime_error "No current object")
  /\ forall h : exception -> M (list string) Integer,
       try_catch (get 3%nat Currenton_Integer) h start
       = h (runtime_error "No current object")
           (snd (get 3%nat Currenton_Integer start)).
Proof.
  assert (H : stack_at start 3%nat Currenton_Integer = []) by reflexivity.
  split; [exact H|].
  exact (get_without_current 3%nat Currenton_Integer start H).
Defined.

(** C6 as stated fails: the action's result cannot be read off what
    [makeCurrent] returns.  Two actions that return 1 and 2 make the call
    end in the same way. *)
Lemma makeCurrent_drops_result :
  ~ exists g : outcome unit -> outcome Z,
      forall a : M (list string) Z,
        g (fst (makeCurrent 0%nat Currenton_Integer ten (as_void a) start))
        = fst (a (snd (on_stack 0%nat Currenton_Integer (stack_push ten) start))).
Proof.
  intros [g Hg].
  pose proof (Hg (ret 1)) as H1.
  pose proof (Hg (ret 2)) as H2.
  cbv in H1, H2. congruence.
Qed.

Lemma makeCurrent_returns_void_witness :
  let w1 := snd (on_stack 0%nat Currenton_Integer (stack_push ten) start) in
  let a : M (list string) Z := ret 5 in
  stack_at (snd (a w1)) 0%nat Currenton_Integer
  = stack_at w1 0%nat Currenton_Integer
  /\ fst (a w1) = Returned 5
  /\ fst (makeCurrent 0%nat Currenton_Integer ten (as_void a) start)
     = Returned tt.
Proof.
  intros w1 a.
  assert (H : stack_at (snd (a w1)) 0%nat Currenton_Integer
              = stack_at w1 0%nat Currenton_Integer) by reflexivity.
  assert (H5 : fst (a w1) = Returned 5) by reflexivity.
  split; [exact H|]. split; [exact H5|].
  exact (proj1 (makeCurrent_returns_void 0%nat Currenton_Integer ten a start H)
               5 H5).
Defined.

Lemma registries_independent_witness :
  Currenton_Integer <> Currenton_Clock
  /\ tls (snd (get 0%nat Currenton_Integer with_clock)) 3%nat Currenton_Clock
     = tls with_clock 3%nat Currenton_Clock
  /\ same_at (fun _ t => t <> Currenton_Clock)
             (makeCurrent 0%nat Currenton_Integer ten
                (run 0%nat integers_only) nothing_yet)
             (makeCurrent 0%nat Currenton_Integer ten
                (run 0%nat integers_only) with_clock).
Proof.
  assert (Hne : Currenton_Integer <> Currenton_Clock) by discriminate.
  assert (Hag : agree (fun _ t => t <> Currenton_Clock) nothing_yet with_clock).
  { split; [reflexivity|].
    intros k [] Hk; [|contradiction].
    unfold with_clock, set_tls, store; simpl.
    now destruct k as [|[|[|[|k]]]]. }
  assert (Hav : avoids Currenton_Clock integers_only).
  { unfold avoids; simpl. repeat split; try discriminate. }
  split; [exact Hne|]. split.
  - exact (proj1 (registries_independent Currenton_Integer Currenton_Clock
                    0%nat 3%nat with_clock Hne)).
  - exact (proj2 (proj2 (proj2 (registries_independent Currenton_Integer
                    Currenton_Clock 0%nat 3%nat nothing_yet Hne))
                    with_clock Hag) ten integers_only Hav).
Defined.

Lemma threads_isolated_witness :
  let P := schedule [0; 1]%nat two_threads in
  let turns := [1; 0; 0; 1; 1; 0; 1; 0; 1]%nat in
  (0 < List.length (threads P))%nat
  /\ nth_error (threads (schedule turns P)) 0%nat
     = nth_error (threads (schedule (filter (Nat.eqb 0) turns) P)) 0%nat
  /\ nth_error (threads (schedule turns P)) 0%nat
     = Some (Halted (Returned tt), [10]).
Proof.
  intros P turns.
  assert (H : (0 < List.length (threads P))%nat) by (vm_compute; lia).
  split; [exact H|]. split.
  - exact (proj1 (threads_isolated [(reader 10, []); (reader 99, [])]
                    [0; 1]%nat turns 0%nat H)).
  - reflexivity.
Defined.

Lemma run_sees_tops_only_witness :
  user ten_current = user ten_over_eleven
  /\ (forall t, StdStack.top (stack_at ten_current 0%nat t)
                = StdStack.top (stack_at ten_over_eleven 0%nat t))
  /\ fst (run 0%nat integers_only ten_current)
     = fst (run 0%nat integers_only ten_over_eleven)
  /\ user (snd (run 0%nat integers_only ten_current))
     = user (snd (run 0%nat integers_only ten_over_eleven)).
Proof.
  assert (Hu : user ten_current = user ten_over_eleven) by reflexivity.
  assert (Ht : forall t, StdStack.top (stack_at ten_current 0%nat t)
                         = StdStack.top (stack_at ten_over_eleven 0%nat t))
    by (intros []; reflexivity).
  split; [exact Hu|]. split; [exact Ht|].
  exact (run_sees_tops_only 0%nat integers_only ten_current ten_over_eleven Hu Ht).
Defined.

Lemma makeCurrent_order_irrelevant_witness :
  Currenton_Integer <> Currenton_Clock
  /\ fst (run 0%nat
            (MakeCurrent Currenton_Integer ten
               (MakeCurrent Currenton_Clock "noon"%string integers_only Return)
               Return) nothing_yet)
     = fst (run 0%nat
              (MakeCurrent Currenton_Clock "noon"%string
                 (MakeCurrent Currenton_Integer ten integers_only Return)
                 Return) nothing_yet).
Proof.
  assert (Hne : Currenton_Integer <> Currenton_Clock) by discriminate.
  split; [exact Hne|].
  exact (proj1 (makeCurrent_order_irrelevant 0%nat Currenton_Integer
                  Currenton_Clock ten "noon"%string integers_only
                  nothing_yet Hne)).
Defined.

Lemma first_use_writes_once_witness :
  within (eq Currenton_Integer) integers_only
  /\ cout (snd (makeCurrent 0%nat Currenton_Integer ten
                  (run 0%nat integers_only) nothing_yet))
     = (cout nothing_yet ++ first_use nothing_yet 0%nat Currenton_Integer)%list
  /\ first_use nothing_yet 0%nat Currenton_Integer
     = ["Creating thread currenton."%string].
Proof.
  assert (Hw : within (eq Currenton_Integer) integers_only)
    by (simpl; repeat split).
  split; [exact Hw|]. split; [|reflexivity].
  exact (proj1 (proj2 (proj2 (first_use_writes_once 0%nat Currenton_Integer
                                nothing_yet)) ten integers_only Hw)).
Defined.

Lemma constructed_once_witness :
  within (eq Currenton_Integer) integers_only
  /\ (forall t, Currenton_Integer = t -> constructed ten_current 0%nat t)
  /\ cout (snd (run 0%nat integers_only ten_current)) = cout ten_current.
Proof.
  assert (Hw : within (eq Currenton_Integer) integers_only)
    by (simpl; repeat split).
  assert (Hc : forall t, Currenton_Integer = t -> constructed ten_current 0%nat t)
    by (intros t <-; vm_compute; discriminate).
  split; [exact Hw|]. split; [exact Hc|].
  exact (proj1 (constructed_once 0%nat (eq Currenton_Integer) integers_only
                  ten_current Hw Hc)).
Defined.

Lemma get_succeeds_during_witness :
  stack_at ten_current 0%nat Currenton_Integer <> []
  /\ exists x,
       fst (get 0%nat Currenton_Integer
              (snd (steps 0%nat 3 (Active integers_only []) ten_current)))
       = Returned x.
Proof.
  assert (H : stack_at ten_current 0%nat Currenton_Integer <> [])
    by (vm_compute; discriminate).
  split; [exact H|].
  exact (get_succeeds_during 0%nat Currenton_Integer integers_only ten_current 3 H).
Defined.

Lemma threads_keep_discipline_witness :
  let P := schedule [0; 1; 0; 0; 1; 0; 0]%nat two_threads in
  nth_error (threads P) 0%nat = Some (Halted (Returned tt), [10])
  /\ forall t, pool_stack P 0%nat t = [].
Proof.
  intros P.
  assert (H : nth_error (threads P) 0%nat = Some (Halted (Returned tt), [10]))
    by reflexivity.
  split; [exact H|].
  exact (proj1 (proj2 (threads_keep_discipline
                         [(reader 10, []); (reader 99, [])]
                         [0; 1; 0; 0; 1; 0; 0]%nat 0%nat
                         (Halted (Returned tt)) [10] H))
               (Returned tt) eq_refl).
Defined.

Lemma incrementNicely_counts_up_witness :
  stack_at (started_at 17) 0%nat Currenton_Integer = [{| getValue := 17 |}]
  /\ (Z.to_nat (20 - 17) < 4)%nat
  /\ fst (run 0%nat (incrementNicely 4) (started_at 17)) = Returned tt
  /\ user (snd (run 0%nat (incrementNicely 4) (started_at 17)))
     = (user (started_at 17) ++ nicely_lines (Z.to_nat (20 - 17)) 17)%list
  /\ stack_at (snd (run 0%nat (incrementNicely 4) (started_at 17)))
              0%nat Currenton_Integer
     = [{| getValue := 17 |}].
Proof.
  assert (Hs : stack_at (started_at 17) 0%nat Currenton_Integer
               = [{| getValue := 17 |}]) by reflexivity.
  assert (Hd : (Z.to_nat (20 - 17) < 4)%nat) by (vm_compute; lia).
  split; [exact Hs|]. split; [exact Hd|].
  exact (incrementNicely_counts_up 0%nat 17 [] 4 (started_at 17) Hs Hd).
Defined.

Lemma incrementButFail_throws_witness :
  stack_at (started_at 13) 0%nat Currenton_Integer = [{| getValue := 13 |}]
  /\ 13 <= 15
  /\ (Z.to_nat (15 - 13) < 3)%nat
  /\ fst (run 0%nat (incrementButFail 3) (started_at 13))
     = Thrown (runtime_error "Oh no.")
  /\ user (snd (run 0%nat (incrementButFail 3) (started_at 13)))
     = (user (started_at 13) ++ fail_lines (Z.to_nat (15 - 13)) 13)%list
  /\ stack_at (snd (run 0%nat (incrementButFail 3) (started_at 13)))
              0%nat Currenton_Integer
     = [{| getValue := 13 |}].
Proof.
  assert (Hs : stack_at (started_at 13) 0%nat Currenton_Integer
               = [{| getValue := 13 |}]) by reflexivity.
  assert (Hv : 13 <= 15) by lia.
  assert (Hd : (Z.to_nat (15 - 13) < 3)%nat) by (vm_compute; lia).
  split; [exact Hs|]. split; [exact Hv|]. split; [exact Hd|].
  exact (incrementButFail_throws 0%nat 13 [] 3 (started_at 13) Hs Hv Hd).
Defined.

Lemma incrementButFail_passes_witness :
  stack_at (started_at 18) 0%nat Currenton_Integer = [{| getValue := 18 |}]
  /\ 15 < 18
  /\ (Z.to_nat (20 - 18) < 3)%nat
  /\ fst (run 0%nat (incrementButFail 3) (started_at 18)) = Returned tt
  /\ user (snd (run 0%nat (incrementButFail 3) (started_at 18)))
     = user (started_at 18)
  /\ stack_at (snd (run 0%nat (incrementButFail 3) (started_at 18)))
              0%nat Currenton_Integer
     = [{| getValue := 18 |}].
Proof.
  assert (Hs : stack_at (started_at 18) 0%nat Currenton_Integer
               = [{| getValue := 18 |}]) by reflexivity.
  assert (Hv : 15 < 18) by lia.
  assert (Hd : (Z.to_nat (20 - 18) < 3)%nat) by (vm_compute; lia).
  split; [exact Hs|]. split; [exact Hv|]. split; [exact Hd|].
  exact (incrementButFail_passes 0%nat 18 [] 3 (started_at 18) Hs Hv Hd).
Defined.

Lemma increment_needs_current_witness :
  stack_at start 0%nat Currenton_Integer = []
  /\ (0 < 1)%nat
  /\ fst (run 0%nat (incrementNicely 1) start)
     = Thrown (runtime_error "No current object")
  /\ fst (run 0%nat (incrementButFail 1) start)
     = Thrown (runtime_error "No current object").
Proof.
  assert (Hs : stack_at start 0%nat Currenton_Integer = []) by reflexivity.
  assert (Hd : (0 < 1)%nat) by lia.
  split; [exact Hs|]. split; [exact Hd|].
  split.
  - exact (proj1 (proj1 (increment_needs_current 0%nat 1 start Hs Hd))).
  - exact (proj1 (proj2 (increment_needs_current 0%nat 1 start Hs Hd))).
Defined.

Lemma thread_result_any_interleaving_witness :
  nth_error [(reader 10, @nil Z); (reader 99, [])] 1%nat = Some (reader 99, [])
  /\ exists n, forall turns,
       (n <= List.length (filter (Nat.eqb 1) turns))%nat ->
       nth_error (threads (schedule turns two_threads)) 1%nat
       = Some (Halted (fst (run 1%nat (reader 99) nothing_yet)),
               user (snd (run 1%nat (reader 99) nothing_yet))).
Proof.
  assert (H : nth_error [(reader 10, @nil Z); (reader 99, [])] 1%nat
              = Some (reader 99, [])) by reflexivity.
  split; [exact H|].
  exact (thread_result_any_interleaving [(reader 10, []); (reader 99, [])]
           1%nat (reader 99) [] H).
Defined.
End Scenarios.
